(** * AQL Studio: the translation / validation / repair pipeline

    A shallow embedding of the query-text utilities
    ([modules/utils/aql_validator.py], [modules/utils/query_preprocessor.py],
    the LIMIT step of [modules/core/api.py]), of the repair loops of
    [modules/core/routes.py] and of the providers of [modules/llm], followed
    by the properties established about them.

    Python [str] values are modelled as lists of characters.  The model
    covers ASCII text: the character classes and the case mappings below are
    those of Python on code points below 128. *)

From Stdlib Require Import List Ascii String ZArith Lia Bool Arith.
Import ListNotations.

Local Open Scope string_scope.
Local Open Scope list_scope.
Local Open Scope nat_scope.

Local Abbreviation length := List.length (only parsing).

(* ================================================================== *)
(** * Part I. Definitions                                              *)
(* ================================================================== *)

(** ** Python strings *)

Definition text := list ascii.

Coercion list_ascii_of_string : string >-> list.

Definition code (c : ascii) : nat := nat_of_ascii c.

(** [str.isspace] on one character, also the class [\s] of [re]. *)
Definition is_space (c : ascii) : bool :=
  let n := code c in
  ((9 <=? n) && (n <=? 13)) || ((28 <=? n) && (n <=? 32)).

Definition is_upper (c : ascii) : bool := (65 <=? code c) && (code c <=? 90).
Definition is_lower (c : ascii) : bool := (97 <=? code c) && (code c <=? 122).
Definition is_digit (c : ascii) : bool := (48 <=? code c) && (code c <=? 57).

(** The class [\w] of [re]. *)
Definition is_word (c : ascii) : bool :=
  is_upper c || is_lower c || is_digit c || (code c =? 95).

Definition upper_char (c : ascii) : ascii :=
  if is_lower c then ascii_of_nat (code c - 32) else c.

Definition lower_char (c : ascii) : ascii :=
  if is_upper c then ascii_of_nat (code c + 32) else c.

(** [s.upper()] and [s.lower()]. *)
Definition upper (s : text) : text := map upper_char s.
Definition lower (s : text) : text := map lower_char s.

Definition eqc (a b : ascii) : bool := Ascii.eqb a b.

Arguments eqc : simpl never.

(** [s.startswith(p)]. *)
Fixpoint startswith (p s : text) : bool :=
  match p, s with
  | [], _ => true
  | _ :: _, [] => false
  | a :: p', b :: s' => eqc a b && startswith p' s'
  end.

(** [s.endswith(p)]. *)
Definition endswith (p s : text) : bool := startswith (rev p) (rev s).

(** [p in s]. *)
Fixpoint contains (p s : text) : bool :=
  startswith p s ||
  match s with
  | [] => false
  | _ :: s' => contains p s'
  end.

Definition text_eqb (a b : text) : bool :=
  (length a =? length b) && startswith a b.

(** [s.split(sep)] for a separator of one character. *)
Fixpoint split_on (sep : ascii) (s : text) : list text :=
  match s with
  | [] => [[]]
  | c :: s' =>
      if eqc c sep then [] :: split_on sep s'
      else match split_on sep s' with
           | [] => [[c]]
           | w :: ws => (c :: w) :: ws
           end
  end.

(** [sep.join(parts)]. *)
Fixpoint join (sep : text) (parts : list text) : text :=
  match parts with
  | [] => []
  | [w] => w
  | w :: ws => w ++ sep ++ join sep ws
  end.

Fixpoint lstrip (s : text) : text :=
  match s with
  | c :: s' => if is_space c then lstrip s' else s
  | [] => []
  end.

Definition rstrip (s : text) : text := rev (lstrip (rev s)).

(** [s.strip()]. *)
Definition strip (s : text) : text := rstrip (lstrip s).

(** Truth value of a string: non-empty. *)
Definition truthy (s : text) : bool :=
  match s with [] => false | _ :: _ => true end.

(** [s.replace(old, new)]: every occurrence, leftmost first, none
    overlapping.  [skip] counts the characters of the occurrence just
    replaced that are still to be passed over.  For an empty [old] Python
    puts [new] before every character and at the end. *)
Fixpoint replace_from (old new : text) (skip : nat) (s : text) : text :=
  match s with
  | [] => []
  | c :: s' =>
      match skip with
      | S k => replace_from old new k s'
      | O =>
          if startswith old s
          then new ++ replace_from old new (length old - 1) s'
          else c :: replace_from old new 0 s'
      end
  end.

Definition replace (old new s : text) : text :=
  match old with
  | [] => new ++ flat_map (fun c => c :: new) s
  | _ :: _ => replace_from old new 0 s
  end.

(** Decimal rendering of a number, as [str(n)] and f-strings do. *)
Definition digit_char (n : nat) : ascii := ascii_of_nat (48 + n).

Fixpoint decimal_fuel (fuel n : nat) (acc : text) : text :=
  match fuel with
  | O => acc
  | S f =>
      let acc' := digit_char (n mod 10) :: acc in
      if n / 10 =? 0 then acc' else decimal_fuel f (n / 10) acc'
  end.

Definition decimal (n : nat) : text := decimal_fuel (S n) n [].

(** Zero-padded decimal of width [w], as [%02d]. *)
Definition zero_pad (w : nat) (s : text) : text :=
  repeat "0"%char (w - length s) ++ s.

(** ** Regular expressions: the fragment of Python's [re] that the
    repository's patterns use *)

(** Sets of characters: a literal, [\s], [\w], [.], and bracket classes. *)
Inductive cset : Type :=
| CChar (c : ascii)
| CSpace
| CWord
| CDot
| CNone
| CNot (x : cset)
| COr (x y : cset).

(** A quantifier [*] or [+] always applies to one character set in the
    repository's patterns, which keeps the matcher structural. *)
Inductive regex : Type :=
| Eps
| Never
| Chr (cs : cset)
| Seq (a b : regex)
| Alt (a b : regex)
| Star (greedy : bool) (cs : cset)
| Group (n : nat) (a : regex)
| Eos.

Record flags : Type := { IGNORECASE : bool; DOTALL : bool }.

Definition NOFLAGS : flags := {| IGNORECASE := false; DOTALL := false |}.
Definition FLAG_I : flags := {| IGNORECASE := true; DOTALL := false |}.
Definition FLAG_IS : flags := {| IGNORECASE := true; DOTALL := true |}.

Definition newline : ascii := ascii_of_nat 10.

Fixpoint cset_mem (fl : flags) (cs : cset) (c : ascii) : bool :=
  match cs with
  | CChar a =>
      if IGNORECASE fl then eqc (lower_char a) (lower_char c) else eqc a c
  | CSpace => is_space c
  | CWord => is_word c
  | CDot => DOTALL fl || negb (eqc c newline)
  | CNone => false
  | CNot x => negb (cset_mem fl x c)
  | COr x y => cset_mem fl x c || cset_mem fl y c
  end.

(** Captured groups, most recent first. *)
Definition groups := list (nat * text).

Definition outcome := option (nat * groups).

Definition orelse (a b : outcome) : outcome :=
  match a with Some r => Some r | None => b end.

(** [p*] and [p*?] followed by the continuation [k]: the greedy loop takes
    a character first and falls back to [k], the lazy one tries [k] first.
    [pos] counts the characters consumed since the match began. *)
Fixpoint star_loop (p : ascii -> bool) (greedy : bool)
    (k : nat -> text -> outcome) (pos : nat) (s : text) : outcome :=
  match s with
  | c :: s' =>
      if p c then
        if greedy
        then orelse (star_loop p greedy k (S pos) s') (k pos s)
        else orelse (k pos s) (star_loop p greedy k (S pos) s')
      else k pos s
  | [] => k pos s
  end.

(** The backtracking matcher, in continuation-passing style: alternatives
    are tried left to right and the first success is the result, as in
    [re]. *)
Fixpoint rmatch (fl : flags) (r : regex) (pos : nat) (s : text) (g : groups)
    (k : nat -> text -> groups -> outcome) : outcome :=
  match r with
  | Eps => k pos s g
  | Never => None
  | Chr cs =>
      match s with
      | c :: s' => if cset_mem fl cs c then k (S pos) s' g else None
      | [] => None
      end
  | Seq a b => rmatch fl a pos s g (fun pos' s' g' => rmatch fl b pos' s' g' k)
  | Alt a b => orelse (rmatch fl a pos s g k) (rmatch fl b pos s g k)
  | Star greedy cs =>
      star_loop (cset_mem fl cs) greedy (fun pos' s' => k pos' s' g) pos s
  | Group n a =>
      rmatch fl a pos s g
        (fun pos' s' g' => k pos' s' ((n, firstn (pos' - pos) s) :: g'))
  | Eos =>
      match s with
      | [] => k pos s g
      | [c] => if eqc c newline then k pos s g else None
      | _ => None
      end
  end.

(** A match anchored at the head of [s]: its length and its groups. *)
Definition match_at (fl : flags) (r : regex) (s : text) : outcome :=
  rmatch fl r 0 s [] (fun pos _ g => Some (pos, g)).

Definition matcher := text -> outcome.

(** One match: where it starts, how long it is, its groups. *)
Record rematch : Type := { m_start : nat; m_len : nat; m_groups : groups }.

(** [re.search]: the leftmost match. *)
Fixpoint search_from (m : matcher) (pos : nat) (s : text) : option rematch :=
  match m s with
  | Some (n, g) => Some {| m_start := pos; m_len := n; m_groups := g |}
  | None =>
      match s with
      | [] => None
      | _ :: s' => search_from m (S pos) s'
      end
  end.

Definition re_search (fl : flags) (r : regex) (s : text) : option rematch :=
  search_from (match_at fl r) 0 s.

(** [m.group(0)] and [m.group(n)]. *)
Definition group0 (s : text) (m : rematch) : text :=
  firstn (m_len m) (skipn (m_start m) s).

Fixpoint lookup_group (n : nat) (g : groups) : text :=
  match g with
  | [] => []
  | (i, t) :: g' => if i =? n then t else lookup_group n g'
  end.

Definition group (n : nat) (m : rematch) : text := lookup_group n (m_groups m).

(** All matches, leftmost first, none overlapping ([re.finditer]).  None of
    the repository's patterns matches the empty string; an empty match is
    followed by a step of one character. *)
Fixpoint finditer_from (m : matcher) (pos skip : nat) (s : text) : list rematch :=
  match s with
  | [] =>
      match skip, m [] with
      | O, Some (n, g) => [{| m_start := pos; m_len := n; m_groups := g |}]
      | _, _ => []
      end
  | _ :: s' =>
      match skip with
      | S k => finditer_from m (S pos) k s'
      | O =>
          match m s with
          | Some (n, g) =>
              {| m_start := pos; m_len := n; m_groups := g |}
                :: finditer_from m (S pos) (n - 1) s'
          | None => finditer_from m (S pos) 0 s'
          end
      end
  end.

Fixpoint count_groups (r : regex) : nat :=
  match r with
  | Seq a b | Alt a b => count_groups a + count_groups b
  | Group _ a => S (count_groups a)
  | _ => 0
  end.

(** [re.findall]: the text of each match, or of its group when the pattern
    has one (no pattern of the repository has more). *)
Definition re_findall (fl : flags) (r : regex) (s : text) : list text :=
  map (fun m => if count_groups r =? 0 then group0 s m else group 1 m)
      (finditer_from (match_at fl r) 0 0 s).

(** Replacement templates: literal text and group references [\1]. *)
Inductive titem : Type :=
| TText (c : ascii)
| TGroup (n : nat).

Definition template := list titem.

Fixpoint expand (t : template) (g : groups) : text :=
  match t with
  | [] => []
  | TText c :: t' => c :: expand t' g
  | TGroup n :: t' => lookup_group n g ++ expand t' g
  end.

(** [re.sub] with a template. *)
Fixpoint sub_from (m : matcher) (t : template) (skip : nat) (s : text) : text :=
  match s with
  | [] =>
      match skip, m [] with
      | O, Some (_, g) => expand t g
      | _, _ => []
      end
  | c :: s' =>
      match skip with
      | S k => sub_from m t k s'
      | O =>
          match m s with
          | Some (O, g) => expand t g ++ c :: sub_from m t 0 s'
          | Some (S n, g) => expand t g ++ sub_from m t n s'
          | None => c :: sub_from m t 0 s'
          end
      end
  end.

Definition re_sub (fl : flags) (r : regex) (t : template) (s : text) : text :=
  sub_from (match_at fl r) t 0 s.

(** *** Reading a pattern from its source text *)

Definition backslash : ascii := ascii_of_nat 92.

Definition parse_escape (c : ascii) : cset :=
  if eqc c "s" then CSpace else if eqc c "w" then CWord else CChar c.

(** The items of a bracket class up to its closing bracket. *)
Fixpoint parse_class (src : text) (acc : cset) : option (cset * text) :=
  match src with
  | [] => None
  | c :: rest =>
      if eqc c "]" then Some (acc, rest)
      else if eqc c backslash then
        match rest with
        | e :: rest' => parse_class rest' (COr acc (parse_escape e))
        | [] => None
        end
      else parse_class rest (COr acc (CChar c))
  end.

Definition quantify (a : regex) (greedy plus : bool) : option regex :=
  match a with
  | Chr cs => Some (if plus then Seq (Chr cs) (Star greedy cs) else Star greedy cs)
  | _ => None
  end.

(** A quantifier after the atom [a], if any. *)
Definition parse_quant (a : regex) (src : text) : option (regex * text) :=
  match src with
  | "*"%char :: "?"%char :: rest => option_map (fun r => (r, rest)) (quantify a false false)
  | "*"%char :: rest => option_map (fun r => (r, rest)) (quantify a true false)
  | "+"%char :: "?"%char :: rest => option_map (fun r => (r, rest)) (quantify a false true)
  | "+"%char :: rest => option_map (fun r => (r, rest)) (quantify a true true)
  | "?"%char :: rest => Some (Alt a Eps, rest)
  | _ => Some (a, src)
  end.

(** Recursive descent; [n] is the number of capturing groups opened so
    far, so that groups are numbered by their opening parenthesis. *)
Fixpoint parse_alt (fuel : nat) (src : text) (n : nat) : option (regex * text * nat) :=
  match fuel with
  | O => None
  | S f =>
      match parse_seq f src n with
      | Some (a, "|"%char :: rest, n1) =>
          match parse_alt f rest n1 with
          | Some (b, rest', n2) => Some (Alt a b, rest', n2)
          | None => None
          end
      | other => other
      end
  end
with parse_seq (fuel : nat) (src : text) (n : nat) : option (regex * text * nat) :=
  match fuel with
  | O => None
  | S f =>
      match src with
      | [] => Some (Eps, src, n)
      | "|"%char :: _ => Some (Eps, src, n)
      | ")"%char :: _ => Some (Eps, src, n)
      | _ =>
          match parse_atom f src n with
          | Some (a, rest, n1) =>
              match parse_quant a rest with
              | Some (item, rest1) =>
                  match parse_seq f rest1 n1 with
                  | Some (Eps, rest2, n2) => Some (item, rest2, n2)
                  | Some (b, rest2, n2) => Some (Seq item b, rest2, n2)
                  | None => None
                  end
              | None => None
              end
          | None => None
          end
      end
  end
with parse_atom (fuel : nat) (src : text) (n : nat) : option (regex * text * nat) :=
  match fuel with
  | O => None
  | S f =>
      match src with
      | [] => None
      | "("%char :: "?"%char :: ":"%char :: rest =>
          match parse_alt f rest n with
          | Some (a, ")"%char :: rest', n1) => Some (a, rest', n1)
          | _ => None
          end
      | "("%char :: rest =>
          match parse_alt f rest (S n) with
          | Some (a, ")"%char :: rest', n1) => Some (Group (S n) a, rest', n1)
          | _ => None
          end
      | "["%char :: "^"%char :: rest =>
          match parse_class rest CNone with
          | Some (cs, rest') => Some (Chr (CNot cs), rest', n)
          | None => None
          end
      | "["%char :: rest =>
          match parse_class rest CNone with
          | Some (cs, rest') => Some (Chr cs, rest', n)
          | None => None
          end
      | "."%char :: rest => Some (Chr CDot, rest, n)
      | "$"%char :: rest => Some (Eos, rest, n)
      | c :: rest =>
          if eqc c backslash then
            match rest with
            | e :: rest' => Some (Chr (parse_escape e), rest', n)
            | [] => None
            end
          else Some (Chr (CChar c), rest, n)
      end
  end.

(** [re.compile]; a pattern outside the fragment compiles to [Never]. *)
Definition re_compile (src : text) : regex :=
  match parse_alt (4 * length src + 4) src 0 with
  | Some (r, [], _) => r
  | _ => Never
  end.

(** A replacement template from its source text. *)
Fixpoint parse_template (src : text) : template :=
  match src with
  | [] => []
  | c :: rest =>
      if eqc c backslash then
        match rest with
        | d :: rest' =>
            if is_digit d then TGroup (code d - 48) :: parse_template rest'
            else TText c :: parse_template rest
        | [] => [TText c]
        end
      else TText c :: parse_template rest
  end.

(** ** The LIMIT step of [AparaviAPI.execute_query] (api.py 157-177) *)

(** The loop [for i in range(len(statements) - 1, -1, -1)] looking for the
    last statement that is not blank; [-1] when there is none. *)
Fixpoint last_statement_scan (statements : list text) (indices : list nat) : Z :=
  match indices with
  | [] => (-1)%Z
  | i :: rest =>
      if truthy (strip (nth i statements []))
      then Z.of_nat i
      else last_statement_scan statements rest
  end.

Definition last_statement_index (statements : list text) : Z :=
  last_statement_scan statements (rev (seq 0 (length statements))).

(** [statements[i] += suffix]. *)
Fixpoint append_at (i : nat) (suffix : text) (statements : list text) : list text :=
  match statements, i with
  | [], _ => []
  | w :: ws, O => (w ++ suffix) :: ws
  | w :: ws, S j => w :: append_at j suffix ws
  end.

Definition LIMIT_CLAUSE : text := " LIMIT 25000".

Definition add_limit (query : text) : text :=
  if negb (contains "LIMIT" (upper query)) then
    if contains ";" query then
      let statements := split_on ";"%char query in
      let idx := last_statement_index statements in
      if (0 <=? idx)%Z
      then join ";" (append_at (Z.to_nat idx) LIMIT_CLAUSE statements)
      else query
    else query ++ LIMIT_CLAUSE
  else query.

(** ** [AQLValidator] (aql_validator.py) *)

(** An entry of the rule table: the pattern and, when the construct can be
    rewritten, the replacement template; both as written in the source. *)
Definition rule : Type := text * option text.

Definition rewrites (pattern replacement : text) : rule := (pattern, Some replacement).
Definition unsupported (pattern : text) : rule := (pattern, None).

Definition UNSUPPORTED_PATTERNS : list rule :=
  [ rewrites "YEAR\s*\(\s*(\w+)\s*\)" "SUBSTRING(\1, 1, 4)";
    rewrites "MONTH\s*\(\s*(\w+)\s*\)" "SUBSTRING(\1, 6, 2)";
    rewrites "DAY\s*\(\s*(\w+)\s*\)" "SUBSTRING(\1, 9, 2)";
    unsupported "DATE_ADD\s*\(";
    unsupported "DATE_SUB\s*\(";
    unsupported "INTERVAL";
    unsupported "COUNT\s*\(\s*DISTINCT" ].

Definition GROUP_BY_PATTERN : text := "GROUP\s+BY\s+(.*?)(?:ORDER\s+BY|HAVING|$)".
Definition ORDER_BY_PATTERN : text := "ORDER\s+BY\s+(.*?)(?:LIMIT|$)".

Definition dquote : ascii := ascii_of_nat 34.

(** [if replacement:] holds for a replacement that is neither [None] nor
    empty. *)
Definition usable (replacement : option text) : option text :=
  match replacement with
  | Some r => if truthy r then Some r else None
  | None => None
  end.

(** The [params] of the validation service's error report. *)
Record error_params : Type := { token : text; expecting : list text }.

(** The error report itself: a dictionary that may hold [params]. *)
Record error_report : Type := { params : option error_params }.

Definition NO_REPORT : error_report := {| params := None |}.

(** First loop of [suggest_fixes]: every rule that has a replacement and
    matches is applied to the whole query. *)
Fixpoint apply_rules (rules : list rule) (fixed_query : text) (changes : list text)
  : text * list text :=
  match rules with
  | [] => (fixed_query, changes)
  | (pattern, replacement) :: rest =>
      match usable replacement with
      | Some repl =>
          let matches_count := length (re_findall FLAG_I (re_compile pattern) fixed_query) in
          if 0 <? matches_count then
            apply_rules rest
              (re_sub FLAG_I (re_compile pattern) (parse_template repl) fixed_query)
              (changes ++ ["Replaced " ++ decimal matches_count ++ " instances of "
                             ++ pattern ++ " with " ++ repl])
          else apply_rules rest fixed_query changes
      | None => apply_rules rest fixed_query changes
      end
  end.

Definition GROUP_BY_NOTE : text := "Updated GROUP BY clause with proper date extraction".

(** Second loop: the rules applied inside the GROUP BY clause. *)
Fixpoint apply_rules_group_by (rules : list rule)
    (group_by_section group_by_columns fixed_query : text) (changes : list text)
  : text * list text :=
  match rules with
  | [] => (fixed_query, changes)
  | (pattern, replacement) :: rest =>
      match usable replacement, re_search FLAG_I (re_compile pattern) group_by_columns with
      | Some repl, Some _ =>
          let new_group_by :=
            re_sub FLAG_I (re_compile pattern) (parse_template repl) group_by_columns in
          apply_rules_group_by rest group_by_section group_by_columns
            (replace group_by_section ("GROUP BY " ++ new_group_by) fixed_query)
            (changes ++ [GROUP_BY_NOTE])
      | _, _ => apply_rules_group_by rest group_by_section group_by_columns fixed_query changes
      end
  end.

(** The note added from the error report of the service. *)
Definition report_changes (error_details : option error_report) : list text :=
  match error_details with
  | Some {| params := Some p |} =>
      if truthy (token p) && negb (length (expecting p) =? 0)
         && existsb (fun e => contains "column" (lower e)) (expecting p)
      then ["The token '" ++ token p ++ "' is not recognized. Expected column types: "
              ++ join ", " (expecting p)]
      else []
  | _ => []
  end.

(** The rewritten query and the list [changes] just before the function
    returns. *)
Definition suggest_fixes_changes (rules : list rule) (query : text)
    (error_details : option error_report) : text * list text :=
  let '(fixed_query, changes) := apply_rules rules query [] in
  let '(fixed_query, changes) :=
    match re_search FLAG_IS (re_compile GROUP_BY_PATTERN) fixed_query with
    | Some m =>
        apply_rules_group_by rules (group0 fixed_query m) (strip (group 1 m))
          fixed_query changes
    | None => (fixed_query, changes)
    end in
  (fixed_query, changes ++ report_changes error_details).

Definition NO_FIX : text := "No automatic fixes could be applied".

(** [AQLValidator.suggest_fixes] over a rule table. *)
Definition suggest_fixes_with (rules : list rule) (query : text)
    (error_message : option text) (error_details : option error_report) : text * text :=
  let '(fixed_query, changes) := suggest_fixes_changes rules query error_details in
  match changes with
  | [] => (query, NO_FIX)
  | _ :: _ => (fixed_query, join "; " changes)
  end.

Definition suggest_fixes := suggest_fixes_with UNSUPPORTED_PATTERNS.

(** The rewriter of the specification: [suggest_fixes] called on a query
    alone, which returns the query and the change descriptions. *)
Definition rewrite (query : text) : text * list text :=
  let '(fixed_query, changes) := suggest_fixes_changes UNSUPPORTED_PATTERNS query None in
  match changes with
  | [] => (query, [])
  | _ :: _ => (fixed_query, changes)
  end.

(** An issue reported by [AQLValidator.validate_query]. *)
Record issue : Type :=
  { issue_type : text;
    issue_pattern : option text;
    issue_matches : list text;
    suggestion : text }.

Fixpoint unsupported_issues (rules : list rule) (query : text) : list issue :=
  match rules with
  | [] => []
  | (pattern, replacement) :: rest =>
      let matches := re_findall FLAG_I (re_compile pattern) query in
      match matches with
      | [] => unsupported_issues rest query
      | _ :: _ =>
          {| issue_type := "unsupported_function";
             issue_pattern := Some pattern;
             issue_matches := matches;
             suggestion :=
               match usable replacement with
               | Some repl => "Replace " ++ pattern ++ " with " ++ repl
               | None => "AQL does not support " ++ pattern
               end |} :: unsupported_issues rest query
      end
  end.

Definition ALIAS_PATTERN : text := "(?:AS|as)\s+([^" ++ [dquote] ++ ",\s]+)".
Definition ORDER_ITEM_PATTERN : text :=
  "([^" ++ [dquote] ++ "\s,]+)(?:\s+(?:ASC|DESC))?".

Definition is_some {A : Type} (o : option A) : bool :=
  match o with Some _ => true | None => false end.

Definition group_by_issues (query : text) : list issue :=
  match re_search FLAG_IS (re_compile GROUP_BY_PATTERN) query with
  | Some m =>
      let group_by_columns := strip (group 1 m) in
      if is_some (re_search NOFLAGS (re_compile ALIAS_PATTERN) group_by_columns)
      then [{| issue_type := "incorrect_group_by"; issue_pattern := None;
               issue_matches := [];
               suggestion := "In GROUP BY, use original column names, not aliases" |}]
      else []
  | None => []
  end.

Definition order_by_issues (query : text) : list issue :=
  match re_search FLAG_IS (re_compile ORDER_BY_PATTERN) query with
  | Some m =>
      let order_by_columns := strip (group 1 m) in
      if is_some (re_search NOFLAGS (re_compile ORDER_ITEM_PATTERN) order_by_columns)
         && negb (forallb (fun col => contains [dquote] col)
                          (split_on ","%char order_by_columns))
      then [{| issue_type := "incorrect_order_by"; issue_pattern := None;
               issue_matches := [];
               suggestion := "In ORDER BY, use quoted column aliases: ORDER BY "
                               ++ [dquote] ++ "Column" ++ [dquote] |}]
      else []
  | None => []
  end.

Definition default_columns_issues (query : text) : list issue :=
  if negb (startswith "SET @@DEFAULT_COLUMNS" (upper (strip query)))
  then [{| issue_type := "missing_default_columns"; issue_pattern := None;
           issue_matches := [];
           suggestion := "Always start AQL queries with SET @@DEFAULT_COLUMNS=" |}]
  else [].

(** [AQLValidator.validate_query] over a rule table: whether the query is
    free of issues, and the issues. *)
Definition validator_check_with (rules : list rule) (query : text) : bool * list issue :=
  let issues :=
    unsupported_issues rules query ++ group_by_issues query
      ++ order_by_issues query ++ default_columns_issues query in
  (length issues =? 0, issues).


(** ** Dates: [datetime] minus [timedelta(days=n)] and [strftime] *)

(** The calendar date of a [datetime]; the time of day plays no part in
    the subtraction of whole days nor in the format [%Y-%m-%d]. *)
Record date : Type := { year : Z; month : Z; day : Z }.

Local Open Scope Z_scope.

Definition is_leap (y : Z) : bool :=
  ((y mod 4 =? 0) && (negb (y mod 100 =? 0) || (y mod 400 =? 0)))%bool.

Definition days_before_year (y : Z) : Z :=
  let y1 := y - 1 in y1 * 365 + y1 / 4 - y1 / 100 + y1 / 400.

Definition days_in_month (y m : Z) : Z :=
  if m =? 2 then (if is_leap y then 29 else 28)
  else if ((m =? 4) || (m =? 6) || (m =? 9) || (m =? 11))%bool then 30 else 31.

(** Days of the year before the first day of month [m]. *)
Definition days_before_month (y m : Z) : Z :=
  fold_left (fun acc k => acc + days_in_month y (Z.of_nat k))
            (seq 1 (Z.to_nat (m - 1))) 0.

(** [date.toordinal]: 1 January of year 1 is day 1. *)
Definition toordinal (d : date) : Z :=
  days_before_year (year d) + days_before_month (year d) (month d) + day d.

(** [date.fromordinal], by the cycles of 400, 100, 4 and 1 years. *)
Definition fromordinal (n : Z) : date :=
  let n := n - 1 in
  let n400 := n / 146097 in
  let n := n mod 146097 in
  let n100 := n / 36524 in
  let n := n mod 36524 in
  let n4 := n / 1461 in
  let n := n mod 1461 in
  let n1 := n / 365 in
  let n := n mod 365 in
  let y := n400 * 400 + 1 + n100 * 100 + n4 * 4 + n1 in
  if ((n1 =? 4) || (n100 =? 4))%bool then {| year := y - 1; month := 12; day := 31 |}
  else
    let leapyear := ((n1 =? 3) && (negb (n4 =? 24) || (n100 =? 3)))%bool in
    let leap_after (m : Z) := if ((2 <? m) && leapyear)%bool then 1 else 0 in
    let m := Z.shiftr (n + 50) 5 in
    let preceding := days_before_month 1 m + leap_after m in
    if n <? preceding then
      let m' := m - 1 in
      let preceding' :=
        preceding - (days_in_month 1 m' + (if ((m' =? 2) && leapyear)%bool then 1 else 0)) in
      {| year := y; month := m'; day := n - preceding' + 1 |}
    else {| year := y; month := m; day := n - preceding + 1 |}.

(** [today - timedelta(days=n)].  A running system's clock reads a year far
    from year 1, where Python's subtraction would overflow. *)
Definition minus_days (today : date) (n : Z) : date :=
  fromordinal (toordinal today - n).

Local Close Scope Z_scope.

(** [d.strftime('%Y-%m-%d')]. *)
Definition strftime_ymd (d : date) : text :=
  decimal (Z.to_nat (year d)) ++ "-" ++ zero_pad 2 (decimal (Z.to_nat (month d)))
    ++ "-" ++ zero_pad 2 (decimal (Z.to_nat (day d))).

(** ** [preprocess_query] (query_preprocessor.py) *)

(** The fallback table: each template variable and its offset in days. *)
Definition date_variable (name : text) (days : Z) : text * Z := (name, days).

Definition DATE_VARIABLES : list (text * Z) :=
  [ date_variable "{{TODAY}}" 0;
    date_variable "{{DATE_MINUS_30_DAYS}}" 30;
    date_variable "{{DATE_MINUS_90_DAYS}}" 90;
    date_variable "{{DATE_MINUS_6_MONTHS}}" 182;
    date_variable "{{DATE_MINUS_1_YEAR}}" 365;
    date_variable "{{DATE_MINUS_2_YEARS}}" 730;
    date_variable "{{DATE_MINUS_3_YEARS}}" 1095;
    date_variable "{{DATE_MINUS_5_YEARS}}" 1825;
    date_variable "{{DATE_MINUS_7_YEARS}}" 2555;
    date_variable "{{DATE_MINUS_10_YEARS}}" 3650 ].

(** [DATE_VARIABLES[var_name]]. *)
Fixpoint date_offset (table : list (text * Z)) (var_name : text) : Z :=
  match table with
  | [] => 0%Z
  | (name, days) :: rest =>
      if text_eqb name var_name then days else date_offset rest var_name
  end.

(** The first loop: the expressions read from [dates.aql], in the order of
    the file.  The file is a data file of the deployment; its content
    [aql_date_expressions] is a parameter of the model, and is empty when
    the file is missing or unreadable. *)
Fixpoint replace_aql_expressions (aql_date_expressions : list (text * text))
    (processed_query : text) : text :=
  match aql_date_expressions with
  | [] => processed_query
  | (var_name, aql_expr) :: rest =>
      replace_aql_expressions rest
        (if contains var_name processed_query
         then replace var_name aql_expr processed_query
         else processed_query)
  end.

(** The fallback loop over the variables that remain. *)
Fixpoint replace_remaining (today : date) (remaining_vars : list text)
    (processed_query : text) : text :=
  match remaining_vars with
  | [] => processed_query
  | var_name :: rest =>
      let target_date := minus_days today (date_offset DATE_VARIABLES var_name) in
      let date_str := strftime_ymd target_date in
      replace_remaining today rest (replace var_name date_str processed_query)
  end.

Definition TEMPLATE_PATTERN : text := "{{.*?}}".

(** [preprocess_query]: the processed query and the warnings logged.
    [today] is the reading of [datetime.now()]. *)
Definition preprocess_query (aql_date_expressions : list (text * text)) (today : date)
    (query_text : text) : text * list text :=
  if negb (truthy query_text) then (query_text, [])
  else
    let processed_query := replace_aql_expressions aql_date_expressions query_text in
    let remaining_vars :=
      filter (fun var => contains var processed_query) (map fst DATE_VARIABLES) in
    let processed_query := replace_remaining today remaining_vars processed_query in
    let unreplaced_vars := re_findall NOFLAGS (re_compile TEMPLATE_PATTERN) processed_query in
    (processed_query,
     match unreplaced_vars with
     | [] => []
     | _ :: _ => ["Unreplaced variables in query: " ++ join ", " unreplaced_vars]
     end).

(** ** Exceptions *)

(** A call either returns a value or raises; [Raise] carries [str(e)]. *)
Inductive result (A : Type) : Type :=
| Ok (a : A)
| Raise (e : text).

Arguments Ok {A} a.
Arguments Raise {A} e.

Definition default {A : Type} (d : A) (o : option A) : A :=
  match o with Some a => a | None => d end.

(** How an f-string renders a value that may be [None]. *)
Definition py_str (o : option text) : text := default ("None" : text) o.

(** ** [AparaviAPI.validate_query] (api.py 317-389) *)

(** What the HTTP request to the validation service comes to: a JSON reply
    (status code, whether its [status] is [OK], its [message], its [error]
    report), or an exception raised by [requests.get] or
    [response.json()]. *)
Inductive http_reply : Type :=
| Reply (status_code : nat) (status_ok : bool) (reply_message : option text)
        (reply_error : error_report)
| Failure (exception : text).

(** The surroundings of one request: the content of [dates.aql], the
    clock, and the validation service, whose reply may depend on how many
    requests it has received before. *)
Record deployment : Type :=
  { aql_date_expressions : list (text * text);
    now : date;
    service : nat -> text -> http_reply }.

Definition validation : Type := bool * option text * error_report.

(** [calls] is the number of earlier requests to the service. *)
Definition validate_query (d : deployment) (calls : nat) (query : text) : validation :=
  let preprocessed_query := fst (preprocess_query (aql_date_expressions d) (now d) query) in
  match service d calls preprocessed_query with
  | Reply status_code status_ok reply_message reply_error =>
      if (status_code =? 200) && status_ok
      then (true, None, NO_REPORT)
      else (false, Some (default ("Unknown validation error" : text) reply_message),
            reply_error)
  | Failure e => (false, Some ("Error during query validation: " ++ e), NO_REPORT)
  end.

(** ** Providers ([modules/llm]) *)

(** An entry of [previous_attempts]. *)
Record attempt : Type :=
  { attempt_number : nat;
    attempt_query : text;
    attempt_explanation : text;
    attempt_error : option text }.

Record feedback : Type :=
  { original_query : text;
    error : option text;
    error_details : error_report;
    previous_attempts : list attempt }.

(** The dictionary a repair call returns; a key may be absent. *)
Record fix_result : Type :=
  { fixed_query_key : option text;
    explanation_key : option text }.

Record translation : Type :=
  { understanding : text;
    query_key : option text;
    explanation : text }.

(** The interface [LLMProvider]. *)
Record provider : Type :=
  { translate_to_aql : text -> result translation;
    fix_invalid_query : text -> text -> feedback -> result fix_result }.

(** *** [LLMProvider.fix_invalid_query] (base.py 117-296), inherited by the
    OpenAI and Ollama providers *)

Definition COLUMN_NOT_FOUND : text :=
  "Column " ++ [dquote] ++ "(.*?)" ++ [dquote] ++ " was not found".

Definition fix_column (error_message fixed_query : text) : text :=
  if contains "Column" error_message && contains "was not found" error_message then
    match re_search NOFLAGS (re_compile COLUMN_NOT_FOUND) error_message with
    | Some m =>
        let bad_column := group 1 m in
        if contains "classif" (lower bad_column) then
          if contains "classificat" (lower bad_column) && contains "s" (lower bad_column)
          then replace bad_column "classifications" fixed_query
          else replace bad_column "classification" fixed_query
        else fixed_query
    | None => fixed_query
    end
  else fixed_query.

Definition quote_column (col : text) : text :=
  if negb (startswith [dquote] col) && negb (endswith [dquote] col)
  then [dquote] ++ col ++ [dquote] else col.

Definition quoted_columns (clause : text) : text :=
  join ", " (map quote_column (map strip (split_on ","%char clause))).

(** [for group in groups: fixed_query = fixed_query.replace(...)]. *)
Fixpoint quote_clauses (keyword : text) (clauses : list text) (fixed_query : text) : text :=
  match clauses with
  | [] => fixed_query
  | clause :: rest =>
      quote_clauses keyword rest
        (replace (keyword ++ " " ++ clause) (keyword ++ " " ++ quoted_columns clause)
                 fixed_query)
  end.

(** The statement [import re] (base.py 237) stands inside the branch for
    the columns that are not found.  It makes [re] a local name of the
    whole method, bound only once that branch has run: where it has not,
    the later uses of [re] raise [UnboundLocalError]. *)
Definition re_imported (error_message : text) : bool :=
  contains "Column" error_message && contains "was not found" error_message.

(** [str(e)] for that exception, in the wording of Python 3.11 and
    later. *)
Definition UNBOUND_RE : text :=
  "cannot access local variable 're' where it is not associated with a value".

Definition fix_group_order (error_message fixed_query : text) : result text :=
  if contains "Syntax error" error_message
     && (contains "GROUP BY" error_message || contains "ORDER BY" error_message)
  then
    if re_imported error_message then
      let groups := re_findall FLAG_I (re_compile "GROUP BY\s+(.*?)(?:LIMIT|ORDER BY|$)")
                               fixed_query in
      let fixed_query := quote_clauses "GROUP BY" groups fixed_query in
      let orders := re_findall FLAG_I (re_compile "ORDER BY\s+(.*?)(?:LIMIT|$)")
                               fixed_query in
      Ok (quote_clauses "ORDER BY" orders fixed_query)
    else Raise UNBOUND_RE
  else Ok fixed_query.

Fixpoint parenthesize_where (where_matches : list text) (fixed_query : text) : text :=
  match where_matches with
  | [] => fixed_query
  | where_clause :: rest =>
      parenthesize_where rest
        (if (contains " AND " where_clause || contains " OR " where_clause)
            && negb (startswith "(" where_clause)
         then replace ("WHERE " ++ where_clause) ("WHERE (" ++ where_clause ++ ")")
                      fixed_query
         else fixed_query)
  end.

Definition fix_where (error_message fixed_query : text) : result text :=
  if contains "Syntax error" error_message && contains "WHERE" error_message
  then
    if re_imported error_message then
      Ok (parenthesize_where
            (re_findall FLAG_I (re_compile "WHERE\s+(.*?)(?:GROUP BY|ORDER BY|LIMIT|$)")
                        fixed_query)
            fixed_query)
    else Raise UNBOUND_RE
  else Ok fixed_query.

(** What the method returns from its [except] clause (base.py 289-296). *)
Definition fix_failed (invalid_query e : text) : fix_result :=
  {| fixed_query_key := Some invalid_query;
     explanation_key := Some ("Failed to fix query: " ++ e) |}.

(** The fallback of the base class: simple local fixes chosen from the
    error message.  A missing error message makes the membership tests
    raise, and a use of [re] before its import raises too; the method
    catches both and returns the query as it came. *)
Definition fallback_fix (invalid_query : text) (error_message : option text) : fix_result :=
  match error_message with
  | Some msg =>
      match fix_group_order msg (fix_column msg invalid_query) with
      | Raise e => fix_failed invalid_query e
      | Ok fixed_query =>
          match fix_where msg fixed_query with
          | Raise e => fix_failed invalid_query e
          | Ok fixed_query =>
              {| fixed_query_key := Some fixed_query;
                 explanation_key :=
                   Some (if text_eqb fixed_query invalid_query
                         then "Could not automatically fix the query. Please check the original error message." : text
                         else "Fixed query based on error: " ++ msg) |}
          end
      end
  | None => fix_failed invalid_query "argument of type 'NoneType' is not iterable"
  end.

(** Which strategy produced the candidate of a repair call. *)
Inductive strategy : Type := RuleBased | Fallback.

(** The rule-based rewrite is tried first, at every call; its result is
    returned when it changed the query, and the fallback runs otherwise. *)
Definition base_fix_strategy (invalid_query : text) (fb : feedback) : strategy * fix_result :=
  let '(fixed_query, explanation) :=
    suggest_fixes invalid_query (error fb) (Some (error_details fb)) in
  if negb (text_eqb fixed_query invalid_query)
  then (RuleBased,
        {| fixed_query_key := Some fixed_query; explanation_key := Some explanation |})
  else (Fallback, fallback_fix invalid_query (error fb)).

Definition base_fix_invalid_query (original_question invalid_query : text) (fb : feedback)
  : result fix_result :=
  Ok (snd (base_fix_strategy invalid_query fb)).

(** *** [ClaudeLLM.fix_invalid_query] (claude.py 338-463) *)

(** [messages] stands for the request to the Claude API made from the
    question, the invalid query and the feedback: the text of the reply,
    or the exception raised by the request or by a status other than
    200. *)
Definition claude_fix_invalid_query (api_key : option text)
    (messages : text -> text -> feedback -> result text)
    (original_question invalid_query : text) (fb : feedback) : result fix_result :=
  match usable api_key with
  | None =>
      Ok {| fixed_query_key := Some invalid_query;
            explanation_key :=
              Some ("Unable to fix query: Claude API key not configured" : text) |}
  | Some _ =>
      match messages original_question invalid_query fb with
      | Ok reply =>
          Ok {| fixed_query_key := Some (strip reply);
                explanation_key :=
                  Some ("Query fixed based on error: " ++ py_str (error fb)) |}
      | Raise e =>
          Ok {| fixed_query_key := Some invalid_query;
                explanation_key := Some ("Error fixing query: " ++ e) |}
      end
  end.

(** ** The repair loops of routes.py *)

(** The dictionary [validation_status]. *)
Record validation_status : Type :=
  { status : text;
    attempts : nat;
    maxAttempts : nat;
    originalQuery : text;
    currentQuery : text;
    message : text;
    progress : nat }.

(** The variables of the loop.  [service_calls] counts the requests made
    to the validation service; [result_query], [validation_fixed] and
    [result_fix_explanation] are the keys of [result] that the loop writes. *)
Record repair_state : Type :=
  { sanitized_query : text;
    is_valid : bool;
    error_message : option text;
    error_report_of : error_report;
    retry_count : nat;
    attempts_made : list attempt;
    validation_of : validation_status;
    result_query : text;
    validation_fixed : bool;
    result_fix_explanation : option text;
    service_calls : nat }.

Definition max_retries : nat := 5.

(** [validation_attempts], which stays 1. *)
Definition validation_attempts : nat := 1.

Definition attempt_banner (retry_count : nat) : text :=
  "Attempt " ++ decimal retry_count ++ " of " ++ decimal max_retries.

(** The state after the first validation (routes.py 466-495). *)
Definition first_validation (d : deployment) (query : text) : repair_state :=
  let sanitized_query := query in
  let '(is_valid, error_message, error_details) := validate_query d 0 sanitized_query in
  {| sanitized_query := sanitized_query;
     is_valid := is_valid;
     error_message := error_message;
     error_report_of := error_details;
     retry_count := 0;
     attempts_made := [];
     validation_of :=
       {| status := if is_valid then "valid" : text else "invalid" : text;
          attempts := validation_attempts;
          maxAttempts := 5;
          originalQuery := sanitized_query;
          currentQuery := sanitized_query;
          message := if is_valid then "Query validated successfully" : text
                     else py_str error_message;
          progress := if is_valid then 75 else 60 |};
     result_query := query;
     validation_fixed := false;
     result_fix_explanation := None;
     service_calls := 1 |}.

(** One pass through the body of the [while] loop; the boolean tells
    whether the pass ended in [break].  In [generate_aql] the body assigns
    [sanitized_query = fixed_query] before validating ([tracking = true]);
    in [query] it does not. *)
Definition repair_iteration (tracking : bool) (d : deployment) (p : provider)
    (question : text) (st : repair_state) : result (repair_state * bool) :=
  let retry_count := S (retry_count st) in
  let vs := validation_of st in
  let fb :=
    {| original_query := sanitized_query st;
       error := error_message st;
       error_details := error_report_of st;
       previous_attempts := attempts_made st |} in
  match fix_invalid_query p question (sanitized_query st) fb with
  | Raise e => Raise e
  | Ok fixed_result =>
      let fixed_query := default [] (fixed_query_key fixed_result) in
      let fix_explanation :=
        default ("No explanation provided" : text) (explanation_key fixed_result) in
      let previous_attempts :=
        attempts_made st ++
          [{| attempt_number := retry_count;
              attempt_query := fixed_query;
              attempt_explanation := fix_explanation;
              attempt_error := error_message st |}] in
      let attempts := Nat.min (validation_attempts + retry_count) (maxAttempts vs) in
      if truthy fixed_query && negb (text_eqb fixed_query (sanitized_query st)) then
        let '(is_valid, error_message, error_details) :=
          validate_query d (service_calls st) fixed_query in
        Ok ({| sanitized_query := if tracking then fixed_query else sanitized_query st;
               is_valid := is_valid;
               error_message := error_message;
               error_report_of := error_details;
               retry_count := retry_count;
               attempts_made := previous_attempts;
               validation_of :=
                 {| status := if is_valid then "valid" : text else "invalid" : text;
                    attempts := attempts;
                    maxAttempts := maxAttempts vs;
                    originalQuery := originalQuery vs;
                    currentQuery := fixed_query;
                    message :=
                      if is_valid then "Query fixed and validated successfully" : text
                      else "Fix attempt " ++ decimal retry_count ++ " of "
                             ++ decimal max_retries ++ " failed: " ++ py_str error_message;
                    progress := if is_valid then 90 else 60 + retry_count * 3 |};
               result_query := if is_valid then fixed_query else result_query st;
               validation_fixed := if is_valid then true else validation_fixed st;
               result_fix_explanation :=
                 if is_valid then Some fix_explanation else result_fix_explanation st;
               service_calls := S (service_calls st) |},
            is_valid)
      else
        Ok ({| sanitized_query := sanitized_query st;
               is_valid := is_valid st;
               error_message := error_message st;
               error_report_of := error_report_of st;
               retry_count := retry_count;
               attempts_made := previous_attempts;
               validation_of :=
                 {| status := "fixing";
                    attempts := attempts;
                    maxAttempts := maxAttempts vs;
                    originalQuery := originalQuery vs;
                    currentQuery := currentQuery vs;
                    message := "AI could not fix the query";
                    progress := 60 + retry_count * 3 |};
               result_query := result_query st;
               validation_fixed := validation_fixed st;
               result_fix_explanation := result_fix_explanation st;
               service_calls := service_calls st |},
            true)
  end.

(** [while not is_valid and retry_count < max_retries: ...]; each pass
    adds one to [retry_count], so [max_retries] passes are all there can
    be. *)
Fixpoint repair_loop (passes : nat) (tracking : bool) (d : deployment) (p : provider)
    (question : text) (st : repair_state) : result repair_state :=
  match passes with
  | O => Ok st
  | S n =>
      if negb (is_valid st) && (retry_count st <? max_retries) then
        match repair_iteration tracking d p question st with
        | Raise e => Raise e
        | Ok (st', true) => Ok st'
        | Ok (st', false) => repair_loop n tracking d p question st'
        end
      else Ok st
  end.

(** The session of the [query] route (routes.py 439-577), for a provider
    that is present: translation, first validation, repair loop, and the
    status set when the query is still invalid.  [friendly] stands for
    [_format_validation_error], which only words the final message. *)
Definition finish_failed (friendly : option text -> error_report -> text -> text)
    (st : repair_state) : repair_state :=
  if is_valid st then st
  else
    let vs := validation_of st in
    {| sanitized_query := sanitized_query st;
       is_valid := is_valid st;
       error_message := error_message st;
       error_report_of := error_report_of st;
       retry_count := retry_count st;
       attempts_made := attempts_made st;
       validation_of :=
         {| status := "failed";
            attempts := attempts vs;
            maxAttempts := maxAttempts vs;
            originalQuery := originalQuery vs;
            currentQuery := currentQuery vs;
            message := friendly (error_message st) (error_report_of st) (sanitized_query st);
            progress := progress vs |};
       result_query := result_query st;
       validation_fixed := validation_fixed st;
       result_fix_explanation := result_fix_explanation st;
       service_calls := service_calls st |}.

Definition repair_from (tracking : bool) (d : deployment) (p : provider)
    (question : text) (st : repair_state) : result repair_state :=
  if negb (is_valid st)
  then repair_loop max_retries tracking d p question st
  else Ok st.

Definition query_session (friendly : option text -> error_report -> text -> text)
    (d : deployment) (p : provider) (question : text) : result repair_state :=
  match translate_to_aql p question with
  | Raise e => Raise e
  | Ok result =>
      let query := default [] (query_key result) in
      match repair_from false d p question (first_validation d query) with
      | Raise e => Raise e
      | Ok st => Ok (finish_failed friendly st)
      end
  end.

(** The session of the [generate_aql] route (routes.py 2367-2477). *)
Definition generate_aql_session (d : deployment) (p : provider) (question : text)
  : result repair_state :=
  match translate_to_aql p question with
  | Raise e => Raise e
  | Ok result =>
      let query := default [] (query_key result) in
      repair_from true d p question (first_validation d query)
  end.

(** ** The translation cache (database.py 384-410, openai.py 57-189) *)

(** The state of the [CredentialStore] that caching could touch: the rows
    of the table [query_cache], as keys and serialized values. *)
Record credential_store : Type := { query_cache : list (text * text) }.

(** [CredentialStore.cache_query_result]: the store after the call and
    the value returned. *)
Definition cache_query_result {A : Type} (db : credential_store) (query : text)
    (result : A) (expiry_minutes : nat) : credential_store * bool :=
  (db, true).

(** [CredentialStore.get_cached_query_result]. *)
Definition get_cached_query_result {A : Type} (db : credential_store) (query : text)
  : option A :=
  None.

(** What [OpenAILLM] is built from.  [chat_completions] stands for the
    request to the API: the content of the reply, or the exception raised
    by the request or by a status other than 200.  [decode_reply] stands
    for lines 125-181, which turn the content into the result and choose
    the time-to-live passed to the cache; [md5_hex] for [hashlib.md5]. *)
Record openai_client : Type :=
  { openai_api_key : option text;
    openai_model : text;
    chat_completions : text -> result text;
    decode_reply : text -> translation * nat;
    md5_hex : text -> text }.

Definition openai_cache_key (c : openai_client) (question : text) : text :=
  "openai_" ++ openai_model c ++ "_" ++ md5_hex c question.

Definition openai_error (e : text) : translation :=
  {| understanding := "OpenAI API Error";
     query_key := Some ("SELECT 'Error: " ++ e ++ "' AS error");
     explanation := "Error calling OpenAI API: " ++ e |}.

Definition openai_no_key : translation :=
  {| understanding := "OpenAI API Error";
     query_key := Some ("SELECT 'Error: OpenAI API key not found in database' AS error" : text);
     explanation := "The OpenAI API key is not configured in the database. Please add it through the settings page." |}.

(** [OpenAILLM.translate_to_aql]: the result, the store afterwards, and
    whether the API was called. *)
Definition openai_translate_to_aql (c : openai_client) (db_store : option credential_store)
    (question : text) : translation * option credential_store * bool :=
  match usable (openai_api_key c) with
  | None => (openai_no_key, db_store, false)
  | Some _ =>
      let cached_result :=
        match db_store with
        | Some db => get_cached_query_result db (openai_cache_key c question)
        | None => None
        end in
      match cached_result with
      | Some cached => (cached, db_store, false)
      | None =>
          match chat_completions c question with
          | Raise e => (openai_error e, db_store, true)
          | Ok content =>
              let '(result, ttl) := decode_reply c content in
              match db_store with
              | Some db =>
                  let '(db', _) :=
                    cache_query_result db (openai_cache_key c question) result ttl in
                  (result, Some db', true)
              | None => (result, None, true)
              end
          end
      end
  end.

(** ** Notions used in the statements *)

(** A candidate is submitted to the validation service when it is not
    empty and differs from [sanitized_query]; otherwise the pass ends the
    loop. *)
Definition submitted (sanitized_query fixed_query : text) : bool :=
  truthy fixed_query && negb (text_eqb fixed_query sanitized_query).

(** The candidate of the last recorded attempt, if any. *)
Definition last_candidate (made : list attempt) : option text :=
  match rev made with
  | [] => None
  | a :: _ => Some (attempt_query a)
  end.

(** The candidate of the last recorded attempt, or the original query when
    no attempt is recorded. *)
Definition latest (original : text) (made : list attempt) : text :=
  default original (last_candidate made).

(** The feedback handed to the provider in a state of the loop. *)
Definition feedback_of (st : repair_state) : feedback :=
  {| original_query := sanitized_query st;
     error := error_message st;
     error_details := error_report_of st;
     previous_attempts := attempts_made st |}.

(** The loop is about to make another pass. *)
Definition loop_condition (st : repair_state) : bool :=
  negb (is_valid st) && (retry_count st <? max_retries).

(** Wording of the final message used in the examples. *)
Definition plain_message (error_message : option text) (_ : error_report) (_ : text) : text :=
  py_str error_message.

(** A statement that holds only white space. *)
Definition blank (t : text) : Prop := truthy (strip t) = false.

(** The continuation that ends a match. *)
Definition finish : nat -> text -> groups -> outcome := fun pos _ g => Some (pos, g).

(** The predicate on the state of a session: [currentQuery] is the
    candidate of the last recorded attempt, or the original query when no
    attempt is recorded. *)
Definition current_is_latest (st : repair_state) : Prop :=
  currentQuery (validation_of st)
  = latest (originalQuery (validation_of st)) (attempts_made st).

(** The state after a pass that recorded its attempt without submitting
    the candidate: the candidate of the last attempt is empty or is the
    query that the repair call was given, and [currentQuery] is what the
    predicate makes it for the attempts before that one. *)
Definition current_is_previous (st : repair_state) : Prop :=
  exists made a,
    attempts_made st = made ++ [a] /\
    submitted (sanitized_query st) (attempt_query a) = false /\
    currentQuery (validation_of st) = latest (originalQuery (validation_of st)) made.

(** A provider whose repair calls return. *)
Definition repairs_return (p : provider) : Prop :=
  forall question invalid_query fb,
    exists fr, fix_invalid_query p question invalid_query fb = Ok fr.

(** The entries of a rule table that have a usable replacement. *)
Definition has_replacement (r : rule) : bool := is_some (usable (snd r)).

Definition rewriting_rules (rules : list rule) : list rule := filter has_replacement rules.

(** ** A deterministic reading of the rewriting patterns

    The three patterns that have a replacement are a keyword followed by
    [\s*\(\s*(\w+)\s*\)].  Matching one of them needs no backtracking: it
    is a scan through five phases.  The scan is shown below to agree with
    the matcher on the compiled patterns. *)

Definition ci_eq (a b : ascii) : bool := eqc (lower_char a) (lower_char b).

Inductive phase : Type :=
| PKeyword (rest : text)
| PParen
| POpen
| PWord
| PClose.

Inductive verdict : Type :=
| Next (ph : phase) (captured : bool)
| Accept
| Reject.

Definition after_keyword (rest : text) : phase :=
  match rest with
  | [] => PParen
  | _ :: _ => PKeyword rest
  end.

Definition step (ph : phase) (c : ascii) : verdict :=
  match ph with
  | PKeyword [] => Reject
  | PKeyword (k :: rest) => if ci_eq k c then Next (after_keyword rest) false else Reject
  | PParen =>
      if is_space c then Next PParen false
      else if eqc c "(" then Next POpen false else Reject
  | POpen =>
      if is_space c then Next POpen false
      else if is_word c then Next PWord true else Reject
  | PWord =>
      if is_word c then Next PWord true
      else if is_space c then Next PClose false
      else if eqc c ")" then Accept else Reject
  | PClose =>
      if is_space c then Next PClose false
      else if eqc c ")" then Accept else Reject
  end.

(** The length of the match at the head of [s] and the word captured. *)
Fixpoint run (ph : phase) (s : text) : option (nat * text) :=
  match s with
  | [] => None
  | c :: s' =>
      match step ph c with
      | Accept => Some (1, [])
      | Reject => None
      | Next ph' captured =>
          match run ph' s' with
          | Some (n, w) => Some (S n, if captured then c :: w else w)
          | None => None
          end
      end
  end.

Definition scanner (keyword : text) : matcher :=
  fun s =>
    match run (after_keyword keyword) s with
    | Some (n, w) => Some (n, [(1, w)])
    | None => None
    end.

(** The pattern of a keyword, as the parser builds it. *)
Definition CLOSE_RE : regex := Seq (Star true CSpace) (Chr (CChar ")")).
Definition WORD_RE : regex := Seq (Group 1 (Seq (Chr CWord) (Star true CWord))) CLOSE_RE.
Definition OPEN_RE : regex := Seq (Star true CSpace) WORD_RE.
Definition PAREN_RE : regex := Seq (Star true CSpace) (Seq (Chr (CChar "(")) OPEN_RE).

Fixpoint keyword_re (keyword : text) : regex :=
  match keyword with
  | [] => PAREN_RE
  | k :: rest => Seq (Chr (CChar k)) (keyword_re rest)
  end.

(** The replacement [SUBSTRING(\1, a, b)] filled with the word [w]. *)
Definition substring_call (a b : ascii) (w : text) : text :=
  "SUBSTRING(" ++ w ++ ", " ++ [a] ++ ", " ++ [b] ++ ")".

(** What the proofs need of a keyword: capital letters, none of them [S],
    the first of which does not occur in [SUBSTRING]. *)
Definition keyword_ok (keyword : text) : bool :=
  match keyword with
  | [] => false
  | k :: _ =>
      forallb (fun c => is_upper c && negb (ci_eq c "S")) keyword
      && forallb (fun c => negb (ci_eq k c)) "SUBSTRING"
  end.

(** No match of [m] starts anywhere in [t]. *)
Definition unmatched (m : matcher) (t : text) : Prop :=
  forall a b, t = a ++ b -> m b = None.

(** The phases that a scan of the keyword goes through. *)
Definition phase_ok (ph : phase) : Prop :=
  match ph with
  | PKeyword rest =>
      rest <> [] /\ Forall (fun c => is_upper c = true /\ ci_eq c "S" = false) rest
  | _ => True
  end.

(** [t] occurs in [s]. *)
Definition inside (t s : text) : Prop := exists a b, s = a ++ t ++ b.

(** Every captured text occurs in [s]. *)
Definition captures_inside (g : groups) (s : text) : Prop :=
  forall i t, In (i, t) g -> inside t s.

(** The rule [r] rewrites the calls of [keyword] into calls of
    [SUBSTRING]. *)
Definition fits (r : rule) (keyword : text) : Prop :=
  exists a b repl,
    usable (snd r) = Some repl /\
    re_compile (fst r) = keyword_re keyword /\
    keyword_ok keyword = true /\
    is_digit a = true /\ is_digit b = true /\
    forall w, expand (parse_template repl) [(1, w)] = substring_call a b w.

(** Every rule of the table either has no replacement or is of this
    form. *)
Definition keyword_rules (rules : list rule) : Prop :=
  Forall (fun r => usable (snd r) = None \/ exists keyword, fits r keyword) rules.

(** No rule of the table that has a replacement matches in [q]. *)
Definition settled (rules : list rule) (q : text) : Prop :=
  forall r keyword, In r rules -> fits r keyword -> unmatched (scanner keyword) q.

(** ** Queries as templates

    A query whose braces only delimit template variables is a sequence of
    plain text and of variables [{{name}}]. *)

Inductive item : Type :=
| Plain (t : text)
| Token (name : text).

Definition token_text (name : text) : text := "{{" ++ name ++ "}}".

Arguments token_text : simpl never.

Definition render_item (it : item) : text :=
  match it with
  | Plain t => t
  | Token name => token_text name
  end.

Definition render (items : list item) : text := flat_map render_item items.

Definition is_brace (c : ascii) : bool := eqc c "{" || eqc c "}".

Definition brace_free (t : text) : bool := forallb (fun c => negb (is_brace c)) t.

Definition item_ok (it : item) : bool :=
  match it with
  | Plain t => brace_free t
  | Token name => brace_free name
  end.

Definition template_ok (items : list item) : Prop :=
  Forall (fun it => item_ok it = true) items.

(** The offset of a recognized variable. *)
Fixpoint lookup_offset (table : list (text * Z)) (var_name : text) : option Z :=
  match table with
  | [] => None
  | (name, days) :: rest =>
      if text_eqb name var_name then Some days else lookup_offset rest var_name
  end.

(** What preprocessing makes of an item: a recognized variable becomes
    its date, anything else stays. *)
Definition substitute (today : date) (it : item) : item :=
  match it with
  | Plain t => Plain t
  | Token name =>
      match lookup_offset DATE_VARIABLES (token_text name) with
      | Some days => Plain (strftime_ymd (minus_days today days))
      | None => Token name
      end
  end.

(** The variables of a template that are written on one line. *)
Fixpoint one_line_tokens (items : list item) : list text :=
  match items with
  | [] => []
  | Plain _ :: rest => one_line_tokens rest
  | Token name :: rest =>
      if forallb (fun c => negb (eqc c newline)) name
      then token_text name :: one_line_tokens rest
      else one_line_tokens rest
  end.

(** No key of the table read from [dates.aql] occurs in the query. *)
Definition no_expression_for (aql_date_expressions : list (text * text)) (query : text) : Prop :=
  Forall (fun entry => contains (fst entry) query = false) aql_date_expressions.

(** The name between the braces of a variable. *)
Definition variable_name (var_name : text) : text :=
  firstn (length var_name - 4) (skipn 2 var_name).

(** The effect on an item of replacing the variables [vars]. *)
Definition substitute_vars (today : date) (vars : list text) (it : item) : item :=
  match it with
  | Plain t => Plain t
  | Token name =>
      if existsb (fun var => text_eqb var (token_text name)) vars
      then Plain (strftime_ymd
                    (minus_days today (date_offset DATE_VARIABLES (token_text name))))
      else Token name
  end.

(** Every occurrence of [old] that starts in [x] lies within [x]. *)
Definition contained (old x y : text) : Prop :=
  forall x1 x2, x = x1 ++ x2 -> x2 <> [] ->
    startswith old (x2 ++ y) = true -> startswith old x2 = true.

(** A variable is replaced in its own item and in no other. *)
Definition swap (name new : text) (it : item) : item :=
  match it with
  | Plain t => Plain t
  | Token name' => if text_eqb name name' then Plain new else Token name'
  end.

(** A variable of the table: a name without braces between [{{] and [}}]. *)
Definition is_variable (var_name : text) : Prop :=
  var_name = token_text (variable_name var_name)
  /\ brace_free (variable_name var_name) = true.

(** What [re.compile(r'{{.*?}}')] is. *)
Definition TEMPLATE_RE : regex :=
  Seq (Chr (CChar "{")) (Seq (Chr (CChar "{"))
    (Seq (Star false CDot) (Seq (Chr (CChar "}")) (Chr (CChar "}"))))).

Definition TAIL_RE : regex :=
  Seq (Star false CDot) (Seq (Chr (CChar "}")) (Chr (CChar "}"))).

Definition one_line (name : text) : bool := forallb (fun c => negb (eqc c newline)) name.

(** The warnings logged for the variables [unreplaced_vars]. *)
Definition unreplaced_warning (unreplaced_vars : list text) : list text :=
  match unreplaced_vars with
  | [] => []
  | _ :: _ => ["Unreplaced variables in query: " ++ join ", " unreplaced_vars]
  end.

(** The day of the example: 2025-01-10. *)
Definition JAN_10_2025 : date := {| year := 2025; month := 1; day := 10 |}.

(** ** Collaborators used in the examples *)

Definition INVALID : http_reply := Reply 400 false (Some ("Syntax error" : text)) NO_REPORT.
Definition VALID : http_reply := Reply 200 true None NO_REPORT.

(** A service that rejects every query. *)
Definition rejecting_service (calls : nat) (query : text) : http_reply := INVALID.

(** A service that rejects its first [n] requests and accepts the later
    ones. *)
Definition accepting_after (n : nat) (calls : nat) (query : text) : http_reply :=
  if calls <? n then INVALID else VALID.

(** A service whose request number [n] times out and which rejects the
    other requests. *)
Definition timing_out_at (n : nat) (calls : nat) (query : text) : http_reply :=
  if calls =? n then Failure "Read timed out" else INVALID.

(** A service whose first request times out and which accepts afterwards. *)
Definition timing_out_first (calls : nat) (query : text) : http_reply :=
  if calls =? 0 then Failure "Read timed out" else VALID.

Definition deployed (service : nat -> text -> http_reply) : deployment :=
  {| aql_date_expressions := [];
     now := {| year := 2025; month := 1; day := 10 |};
     service := service |}.

Definition translated (query : text) : result translation :=
  Ok {| understanding := "count files"; query_key := Some query;
        explanation := "counts the files" |}.

(** A translator that first answers [query] and whose every repair call
    answers [candidate]. *)
Definition constant_translator (query candidate : text) : provider :=
  {| translate_to_aql := fun _ => translated query;
     fix_invalid_query := fun _ _ _ =>
       Ok {| fixed_query_key := Some candidate;
             explanation_key := Some ("changed the query" : text) |} |}.

(** A translator whose repair call number [n] answers [SELECT n]. *)
Definition numbering_translator (query : text) : provider :=
  {| translate_to_aql := fun _ => translated query;
     fix_invalid_query := fun _ _ fb =>
       Ok {| fixed_query_key :=
               Some ("SELECT " ++ decimal (S (length (previous_attempts fb))));
             explanation_key := Some ("changed the query" : text) |} |}.

(** A provider that inherits the repair method of the base class. *)
Definition base_provider (query : text) : provider :=
  {| translate_to_aql := fun _ => translated query;
     fix_invalid_query := base_fix_invalid_query |}.

(** The Claude provider, with a key, whose API cannot be reached. *)
Definition unreachable_claude (query : text) : provider :=
  {| translate_to_aql := fun _ => translated query;
     fix_invalid_query :=
       claude_fix_invalid_query (Some ("sk-key" : text))
         (fun _ _ _ => Raise "Connection refused") |}.

(** The message of a service that does not know the column
    [classif-date]. *)
Definition UNKNOWN_COLUMN : text :=
  "Column " ++ [dquote] ++ "classif-date" ++ [dquote] ++ " was not found".

(** A service that rejects every query with that message. *)
Definition missing_column_service (calls : nat) (query : text) : http_reply :=
  Reply 400 false (Some UNKNOWN_COLUMN) NO_REPORT.

(** ** Notions used for the sessions of [generate_aql] *)




(** ** Notions used for preprocessing *)



(** ** [_format_validation_error] (routes.py 183-231) *)















(** ** The table [credentials] of [CredentialStore] (database.py 134-230)

    The table is the list of its rows, in the order of insertion; of a row
    the columns [id], [provider], [key_name] and [value] are kept.  The
    statements are those of the methods; a statement fails only by
    breaking a constraint of the table. *)












(** *** The providers' view of the keys (openai.py 40-55 and 191-202,
    dummy.py 29-42) *)





(* ================================================================== *)
(** * Part II. Properties                                              *)
(* ================================================================== *)

(** ** Strings *)

Lemma eqc_eq (a b : ascii) : eqc a b = true <-> a = b.
Proof. apply Ascii.eqb_eq. Qed.

Lemma eqc_refl (a : ascii) : eqc a a = true.
Proof. apply Ascii.eqb_refl. Qed.

Lemma startswith_refl (s : text) : startswith s s = true.
Proof. induction s as [|c s IH]; simpl; [reflexivity|]. now rewrite eqc_refl. Qed.

Lemma startswith_app (p s t : text) :
  startswith p s = true -> startswith p (s ++ t) = true.
Proof.
  revert s; induction p as [|a p IH]; intros [|b s]; simpl; try easy.
  intros H. apply andb_true_iff in H as [H1 H2]. rewrite H1. simpl. now apply IH.
Qed.

Lemma startswith_prefix (p s : text) :
  startswith p s = true <-> exists t, s = p ++ t.
Proof.
  split.
  - revert s; induction p as [|a p IH]; intros s H.
    + now exists s.
    + destruct s as [|b s]; simpl in H; [discriminate|].
      apply andb_true_iff in H as [H1 H2]. apply eqc_eq in H1. subst b.
      destruct (IH _ H2) as [t ->]. now exists t.
  - intros [t ->]. induction p as [|a p IH]; simpl; [reflexivity|].
    now rewrite eqc_refl.
Qed.

Lemma text_eqb_eq (a b : text) : text_eqb a b = true <-> a = b.
Proof.
  unfold text_eqb. split.
  - intros H. apply andb_true_iff in H as [H1 H2]. apply Nat.eqb_eq in H1.
    apply startswith_prefix in H2 as [t ->]. rewrite length_app in H1.
    destruct t; [now rewrite app_nil_r|]. simpl in H1. lia.
  - intros ->. now rewrite Nat.eqb_refl, startswith_refl.
Qed.

Lemma text_eqb_refl (a : text) : text_eqb a a = true.
Proof. now apply text_eqb_eq. Qed.

Lemma text_eqb_neq (a b : text) : text_eqb a b = false <-> a <> b.
Proof.
  split.
  - intros H E. apply text_eqb_eq in E. congruence.
  - intros H. destruct (text_eqb a b) eqn:E; [|reflexivity].
    apply text_eqb_eq in E. contradiction.
Qed.

(** ** The LIMIT step *)

Lemma scan_skips_blank (statements : list text) (xs ys : list nat) :
  Forall (fun i => blank (nth i statements [])) xs ->
  last_statement_scan statements (xs ++ ys) = last_statement_scan statements ys.
Proof.
  induction 1 as [|i xs Hi _ IH]; simpl; [reflexivity|].
  unfold blank in Hi. now rewrite Hi.
Qed.

Lemma last_statement_index_spec (pre post : list text) (st : text) :
  truthy (strip st) = true ->
  Forall blank post ->
  last_statement_index (pre ++ st :: post) = Z.of_nat (length pre).
Proof.
  intros Hst Hpost. unfold last_statement_index.
  rewrite length_app. simpl length.
  replace (length pre + S (length post)) with (S (length pre) + length post) by lia.
  rewrite seq_app, rev_app_distr. simpl plus.
  rewrite scan_skips_blank.
  - rewrite seq_S, rev_app_distr. simpl.
    rewrite app_nth2 by lia. rewrite Nat.sub_diag. simpl. now rewrite Hst.
  - apply Forall_forall. intros i Hi. apply in_rev, in_seq in Hi.
    rewrite app_nth2 by lia.
    replace (i - length pre) with (S (i - S (length pre))) by lia. simpl.
    rewrite Forall_forall in Hpost.
    apply Hpost, nth_In. lia.
Qed.

Lemma append_at_spec (pre post : list text) (st suffix : text) :
  append_at (length pre) suffix (pre ++ st :: post) = pre ++ (st ++ suffix) :: post.
Proof. induction pre as [|w pre IH]; simpl; [reflexivity|]. now rewrite IH. Qed.

(** Splitting what [join] put together gives the parts back, when no part
    holds the separator. *)
Lemma split_on_no_sep (sep : ascii) (w : text) :
  contains [sep] w = false -> split_on sep w = [w].
Proof.
  induction w as [|c w IH]; simpl; [reflexivity|].
  intros H. apply orb_false_iff in H as [H1 H2].
  rewrite andb_true_r in H1.
  replace (eqc c sep) with false by (rewrite <- H1; unfold eqc; apply Ascii.eqb_sym).
  now rewrite (IH H2).
Qed.

Lemma split_on_app_sep (sep : ascii) (w rest : text) :
  contains [sep] w = false ->
  split_on sep (w ++ sep :: rest) = w :: split_on sep rest.
Proof.
  induction w as [|c w IH]; simpl.
  - intros _. now rewrite eqc_refl.
  - intros H. apply orb_false_iff in H as [H1 H2].
    rewrite andb_true_r in H1.
    replace (eqc c sep) with false by (rewrite <- H1; unfold eqc; apply Ascii.eqb_sym).
    now rewrite (IH H2).
Qed.

Lemma split_on_join (sep : ascii) (parts : list text) :
  parts <> [] ->
  Forall (fun w => contains [sep] w = false) parts ->
  split_on sep (join [sep] parts) = parts.
Proof.
  induction parts as [|w ws IH]; [easy|]. intros _ H.
  inversion H as [|? ? Hw Hws]; subst.
  destruct ws as [|w' ws'].
  - simpl. now apply split_on_no_sep.
  - change (join [sep] (w :: w' :: ws')) with (w ++ sep :: join [sep] (w' :: ws')).
    rewrite split_on_app_sep by assumption. f_equal. now apply IH.
Qed.

Lemma eqc_sym_false (a b : ascii) : eqc a b = false -> eqc b a = false.
Proof. unfold eqc. intros H. now rewrite Ascii.eqb_sym. Qed.

Lemma split_on_parts (sep : ascii) (s : text) :
  Forall (fun w => contains [sep] w = false) (split_on sep s).
Proof.
  induction s as [|c s IH]; simpl.
  - now constructor.
  - destruct (eqc c sep) eqn:E.
    + now constructor.
    + apply eqc_sym_false in E.
      destruct (split_on sep s) as [|w ws].
      * constructor; [|constructor]. simpl. now rewrite E.
      * inversion IH; subst. constructor; [|assumption].
        simpl. now rewrite E.
Qed.

Lemma split_on_not_nil (sep : ascii) (s : text) : split_on sep s <> [].
Proof.
  induction s as [|c s IH]; simpl; [easy|].
  destruct (eqc c sep); [easy|]. now destruct (split_on sep s).
Qed.

(** The statements of a query after the LIMIT step, under the conditions
    of the multi-statement branch. *)
Lemma add_limit_multi (query : text) (pre post : list text) (st : text) :
  contains "LIMIT" (upper query) = false ->
  contains ";" query = true ->
  split_on ";"%char query = pre ++ st :: post ->
  truthy (strip st) = true ->
  Forall blank post ->
  add_limit query = join ";" (pre ++ (st ++ LIMIT_CLAUSE) :: post).
Proof.
  intros Hlimit Hsemi Hsplit Hst Hpost. unfold add_limit.
  rewrite Hlimit, Hsemi. simpl negb. cbv iota. rewrite Hsplit.
  rewrite (last_statement_index_spec pre post st Hst Hpost).
  cbv zeta.
  replace (0 <=? Z.of_nat (length pre))%Z with true
    by (symmetry; apply Z.leb_le; lia).
  now rewrite Nat2Z.id, append_at_spec.
Qed.

Lemma contains_char_app (c : ascii) (a b : text) :
  contains [c] (a ++ b) = contains [c] a || contains [c] b.
Proof.
  induction a as [|x a IH].
  - simpl. destruct (contains [c] b); reflexivity.
  - simpl. rewrite IH. destruct (eqc c x); simpl; [reflexivity|].
    destruct a; reflexivity.
Qed.

(** C7. For a query of several [;]-delimited statements with no LIMIT
    clause (the test ignores case), the LIMIT step appends [ LIMIT 25000]
    to the last statement that is not blank and to no other: the statements
    before it and the blank statements after it are the same, in the same
    positions.  In particular ["SELECT 1; SELECT 2;"] becomes
    ["SELECT 1; SELECT 2 LIMIT 25000;"]. *)
Theorem limit_last_statement_only :
  (forall (query : text) (pre post : list text) (st : text),
      contains "LIMIT" (upper query) = false ->
      contains ";" query = true ->
      split_on ";"%char query = pre ++ st :: post ->
      truthy (strip st) = true ->
      Forall blank post ->
      add_limit query = join ";" (pre ++ (st ++ " LIMIT 25000") :: post)
      /\ split_on ";"%char (add_limit query) = pre ++ (st ++ " LIMIT 25000") :: post)
  /\ add_limit "SELECT 1; SELECT 2;" = "SELECT 1; SELECT 2 LIMIT 25000;"%string.
Proof.
  split; [|reflexivity].
  intros query pre post st Hlimit Hsemi Hsplit Hst Hpost.
  pose proof (add_limit_multi query pre post st Hlimit Hsemi Hsplit Hst Hpost) as E.
  split; [exact E|]. rewrite E.
  apply split_on_join; [now destruct pre|].
  pose proof (split_on_parts ";"%char query) as P. rewrite Hsplit in P.
  apply Forall_app in P as [P1 P2]. inversion P2 as [|? ? P3 P4]; subst.
  apply Forall_app. split; [assumption|]. constructor; [|assumption].
  rewrite contains_char_app. rewrite P3. reflexivity.
Qed.

Lemma limit_last_statement_only_witness :
  let query : text := "SELECT 1; SELECT 2;" in
  add_limit query = join ";" (["SELECT 1" : text] ++ (" SELECT 2" ++ " LIMIT 25000") :: [[]])
  /\ split_on ";"%char (add_limit query)
     = ["SELECT 1" : text] ++ (" SELECT 2" ++ " LIMIT 25000") :: [[]].
Proof.
  apply (proj1 limit_last_statement_only "SELECT 1; SELECT 2;"
           ["SELECT 1" : text] [[]] " SELECT 2").
  - reflexivity.
  - reflexivity.
  - reflexivity.
  - reflexivity.
  - constructor; [reflexivity|constructor].
Defined.

(** ** The translation cache *)

(** C10. The store behind the translation cache is inert: a lookup
    returns [None] for every key, in every state of the store; a store
    returns [True] and leaves the store as it was; and so
    [translate_to_aql] with a store answers exactly as without one, calling
    the API whenever a key is configured. *)
Theorem translation_cache_inert :
  (forall (db : credential_store) (key : text),
      get_cached_query_result db key = (None : option translation))
  /\ (forall (db : credential_store) (key : text) (t : translation) (ttl : nat),
         cache_query_result db key t ttl = (db, true))
  /\ (forall (c : openai_client) (db : credential_store) (question : text),
         openai_translate_to_aql c (Some db) question
         = (fst (fst (openai_translate_to_aql c None question)), Some db,
            is_some (usable (openai_api_key c)))).
Proof.
  repeat split.
  intros c db question. unfold openai_translate_to_aql.
  destruct (usable (openai_api_key c)); simpl; [|reflexivity].
  destruct (chat_completions c question); simpl; [|reflexivity].
  now destruct (decode_reply c a).
Qed.

(** ** The repair loops *)

(** What one pass of the loop does to the state. *)
Lemma repair_iteration_inv (tracking : bool) (d : deployment) (p : provider)
    (question : text) (st st' : repair_state) (brk : bool) :
  repair_iteration tracking d p question st = Ok (st', brk) ->
  exists fr,
    fix_invalid_query p question (sanitized_query st) (feedback_of st) = Ok fr /\
    let fixed_query := default [] (fixed_query_key fr) in
    retry_count st' = S (retry_count st) /\
    attempts_made st' =
      attempts_made st ++
        [{| attempt_number := S (retry_count st);
            attempt_query := fixed_query;
            attempt_explanation :=
              default ("No explanation provided" : text) (explanation_key fr);
            attempt_error := error_message st |}] /\
    originalQuery (validation_of st') = originalQuery (validation_of st) /\
    maxAttempts (validation_of st') = maxAttempts (validation_of st) /\
    attempts (validation_of st') =
      Nat.min (validation_attempts + S (retry_count st)) (maxAttempts (validation_of st)) /\
    if submitted (sanitized_query st) fixed_query then
      (is_valid st', error_message st', error_report_of st')
        = validate_query d (service_calls st) fixed_query /\
      currentQuery (validation_of st') = fixed_query /\
      sanitized_query st' = (if tracking then fixed_query else sanitized_query st) /\
      service_calls st' = S (service_calls st) /\
      brk = is_valid st'
    else
      is_valid st' = is_valid st /\
      error_message st' = error_message st /\
      currentQuery (validation_of st') = currentQuery (validation_of st) /\
      sanitized_query st' = sanitized_query st /\
      service_calls st' = service_calls st /\
      message (validation_of st') = "AI could not fix the query"%string /\
      brk = true.
Proof.
  unfold repair_iteration. fold (feedback_of st).
  destruct (fix_invalid_query p question (sanitized_query st) (feedback_of st))
    as [fr|e]; [|discriminate].
  intros H. exists fr. split; [reflexivity|]. cbv zeta.
  unfold submitted.
  destruct (truthy (default [] (fixed_query_key fr))
            && negb (text_eqb (default [] (fixed_query_key fr)) (sanitized_query st))).
  - destruct (validate_query d (service_calls st) (default [] (fixed_query_key fr)))
      as [[v m] r].
    injection H as <- <-. simpl. repeat split; reflexivity.
  - injection H as <- <-. simpl. repeat split; reflexivity.
Qed.

(** A property that holds before the loop and is kept by every pass holds
    when the loop ends. *)
Lemma repair_loop_invariant (P : repair_state -> Prop) (tracking : bool)
    (d : deployment) (p : provider) (question : text) :
  (forall st st' brk,
      P st -> loop_condition st = true ->
      repair_iteration tracking d p question st = Ok (st', brk) -> P st') ->
  forall passes st st',
    P st -> repair_loop passes tracking d p question st = Ok st' -> P st'.
Proof.
  intros Hstep. induction passes as [|n IH]; intros st st' HP H; simpl in H.
  - now injection H as <-.
  - fold (loop_condition st) in H.
    destruct (loop_condition st) eqn:C; [|now injection H as <-].
    destruct (repair_iteration tracking d p question st) as [[st1 [|]]|e] eqn:E;
      [| |discriminate].
    + injection H as <-. eapply Hstep; eauto.
    + eapply IH; [|exact H]. eapply Hstep; eauto.
Qed.

(** More passes than the budget allows change nothing: the guard of the
    loop stops it first. *)
Lemma repair_loop_enough (tracking : bool) (d : deployment) (p : provider)
    (question : text) (passes : nat) (st : repair_state) :
  max_retries - retry_count st <= passes ->
  repair_loop passes tracking d p question st
  = repair_loop (max_retries - retry_count st) tracking d p question st.
Proof.
  revert st. induction passes as [|n IH]; intros st Hle.
  - replace (max_retries - retry_count st) with 0 by lia. reflexivity.
  - destruct (max_retries - retry_count st) as [|k] eqn:K.
    + simpl. replace (retry_count st <? max_retries) with false
        by (symmetry; apply Nat.ltb_ge; lia).
      now rewrite andb_false_r.
    + simpl. destruct (negb (is_valid st) && (retry_count st <? max_retries)); [|reflexivity].
      destruct (repair_iteration tracking d p question st) as [[st1 [|]]|e] eqn:E;
        try reflexivity.
      apply repair_iteration_inv in E as (fr & _ & Hrc & _).
      rewrite IH by lia. f_equal. lia.
Qed.

Lemma first_validation_facts (d : deployment) (query : text) :
  let st := first_validation d query in
  retry_count st = 0 /\ attempts_made st = [] /\
  sanitized_query st = query /\
  originalQuery (validation_of st) = query /\
  currentQuery (validation_of st) = query /\
  maxAttempts (validation_of st) = 5 /\
  attempts (validation_of st) = 1 /\
  service_calls st = 1 /\
  (is_valid st, error_message st, error_report_of st) = validate_query d 0 query.
Proof.
  unfold first_validation. destruct (validate_query d 0 query) as [[v m] r].
  simpl. repeat split; reflexivity.
Qed.

Lemma finish_failed_facts (friendly : option text -> error_report -> text -> text)
    (st : repair_state) :
  let st' := finish_failed friendly st in
  retry_count st' = retry_count st /\ attempts_made st' = attempts_made st /\
  is_valid st' = is_valid st /\
  sanitized_query st' = sanitized_query st /\
  originalQuery (validation_of st') = originalQuery (validation_of st) /\
  currentQuery (validation_of st') = currentQuery (validation_of st) /\
  maxAttempts (validation_of st') = maxAttempts (validation_of st) /\
  attempts (validation_of st') = attempts (validation_of st) /\
  service_calls st' = service_calls st /\
  (is_valid st = false -> status (validation_of st') = "failed"%string) /\
  (is_valid st = true -> st' = st).
Proof.
  unfold finish_failed. destruct (is_valid st) eqn:E; simpl; repeat split; intros;
    try reflexivity; try discriminate; try assumption.
Qed.

(** The final state of a session of the [query] route comes from the
    first validation by the loop and the closing step. *)
Lemma query_session_inv (friendly : option text -> error_report -> text -> text)
    (d : deployment) (p : provider) (question : text) (st : repair_state) :
  query_session friendly d p question = Ok st ->
  exists result st0,
    translate_to_aql p question = Ok result /\
    repair_from false d p question (first_validation d (default [] (query_key result)))
      = Ok st0 /\
    st = finish_failed friendly st0.
Proof.
  unfold query_session. destruct (translate_to_aql p question) as [result|e]; [|discriminate].
  destruct (repair_from false d p question _) as [st0|e] eqn:E; [|discriminate].
  intros H. injection H as <-. now exists result, st0.
Qed.

Lemma repair_from_invariant (P : repair_state -> Prop) (tracking : bool)
    (d : deployment) (p : provider) (question : text) :
  (forall st st' brk,
      P st -> loop_condition st = true ->
      repair_iteration tracking d p question st = Ok (st', brk) -> P st') ->
  forall st st', P st -> repair_from tracking d p question st = Ok st' -> P st'.
Proof.
  intros Hstep st st' HP. unfold repair_from.
  destruct (negb (is_valid st)).
  - now apply repair_loop_invariant.
  - now intros H; injection H as <-.
Qed.

(** *** Bounded attempts *)

Lemma repair_counts (friendly : option text -> error_report -> text -> text)
    (d : deployment) (p : provider) (question : text) (st : repair_state) :
  query_session friendly d p question = Ok st ->
  length (attempts_made st) = retry_count st /\
  retry_count st <= max_retries /\
  maxAttempts (validation_of st) = 5 /\
  attempts (validation_of st) <= maxAttempts (validation_of st).
Proof.
  intros H. apply query_session_inv in H as (result & st0 & _ & Hloop & ->).
  destruct (finish_failed_facts friendly st0) as (-> & -> & _ & _ & _ & _ & -> & -> & _).
  set (P := fun st : repair_state =>
              length (attempts_made st) = retry_count st /\
              retry_count st <= max_retries /\
              maxAttempts (validation_of st) = 5 /\
              attempts (validation_of st) <= maxAttempts (validation_of st)).
  apply (repair_from_invariant P false d p question) with (st' := st0) in Hloop.
  - exact Hloop.
  - intros st st' brk (H1 & H2 & H3 & H4) C E.
    apply repair_iteration_inv in E as (fr & _ & Hrc & Hat & _ & Hmax & Hatt & _).
    unfold loop_condition in C. apply andb_true_iff in C as [_ C].
    apply Nat.ltb_lt in C.
    unfold P. rewrite Hrc, Hat, Hmax, Hatt, length_app. cbn [List.length].
    repeat split; lia.
  - destruct (first_validation_facts d (default [] (query_key result)))
      as (F1 & F2 & _ & _ & _ & F3 & F4 & _).
    unfold P. rewrite F1, F2, F3, F4. unfold max_retries. simpl. repeat split; lia.
Qed.

(** C2, as amended.  In every session the number of recorded attempts is
    the number of passes of the loop and never exceeds [maxAttempts] = 5,
    and neither does the attempt count of the status; the number equals 5
    exactly when the loop made its fifth pass, whatever the outcome of
    that pass. *)
Theorem bounded_attempts (friendly : option text -> error_report -> text -> text)
    (d : deployment) (p : provider) (question : text) (st : repair_state) :
  query_session friendly d p question = Ok st ->
  maxAttempts (validation_of st) = 5 /\
  length (attempts_made st) <= maxAttempts (validation_of st) /\
  attempts (validation_of st) <= maxAttempts (validation_of st) /\
  (length (attempts_made st) = maxAttempts (validation_of st) <-> retry_count st = 5).
Proof.
  intros H. destruct (repair_counts friendly d p question st H) as (H1 & H2 & H3 & H4).
  unfold max_retries in H2. rewrite H3. repeat split; lia.
Qed.

Lemma bounded_attempts_witness :
  exists st,
    query_session plain_message (deployed rejecting_service)
      (numbering_translator "SELECT 0") "how many files" = Ok st /\
    maxAttempts (validation_of st) = 5 /\
    length (attempts_made st) <= maxAttempts (validation_of st) /\
    attempts (validation_of st) <= maxAttempts (validation_of st) /\
    (length (attempts_made st) = maxAttempts (validation_of st) <-> retry_count st = 5).
Proof.
  eexists. split.
  - vm_compute. reflexivity.
  - apply (bounded_attempts plain_message (deployed rejecting_service)
             (numbering_translator "SELECT 0") "how many files").
    vm_compute. reflexivity.
Defined.

(** The count reaches [maxAttempts] in a session that ends valid: the
    service rejects the first query and four candidates and accepts the
    fifth candidate. *)
Lemma five_attempts_and_valid :
  match query_session plain_message (deployed (accepting_after 5))
          (numbering_translator "SELECT 0") "how many files" with
  | Ok st =>
      length (attempts_made st) = maxAttempts (validation_of st)
      /\ maxAttempts (validation_of st) = 5
      /\ is_valid st = true
      /\ status (validation_of st) = "valid"%string
      /\ currentQuery (validation_of st) = "SELECT 5"%string
  | Raise _ => False
  end.
Proof. vm_compute. repeat split; reflexivity. Qed.

(** *** The current query *)

Lemma last_candidate_snoc (made : list attempt) (a : attempt) :
  last_candidate (made ++ [a]) = Some (attempt_query a).
Proof. unfold last_candidate. now rewrite rev_app_distr. Qed.

Lemma latest_snoc (original : text) (made : list attempt) (a : attempt) :
  latest original (made ++ [a]) = attempt_query a.
Proof. unfold latest. now rewrite last_candidate_snoc. Qed.

Lemma current_is_latest_first (d : deployment) (query : text) :
  current_is_latest (first_validation d query).
Proof.
  destruct (first_validation_facts d query) as (_ & F2 & _ & F4 & F5 & _).
  unfold current_is_latest. now rewrite F2, F4, F5.
Qed.

(** What a pass makes of the predicate, in either route. *)
Lemma current_is_latest_step (tracking : bool) (d : deployment) (p : provider)
    (question : text) (st st' : repair_state) (brk : bool) :
  current_is_latest st ->
  repair_iteration tracking d p question st = Ok (st', brk) ->
  current_is_latest st' \/ (brk = true /\ current_is_previous st').
Proof.
  intros I E.
  apply repair_iteration_inv in E as (fr & _ & _ & Hat & Ho & _ & _ & Hcase).
  cbv zeta in Hcase.
  destruct (submitted (sanitized_query st) (default [] (fixed_query_key fr))) eqn:Sb.
  - left. destruct Hcase as (_ & Hc & _).
    unfold current_is_latest. now rewrite Hat, latest_snoc, Hc.
  - right. destruct Hcase as (_ & _ & Hc & Hs & _ & _ & Hb). split; [assumption|].
    eexists _, _. split; [exact Hat|]. cbn [attempt_query]. rewrite Hs, Hc, Ho.
    now split.
Qed.

(** A loop-head invariant [I] gives a property [Q] of the final state. *)
Lemma repair_loop_rule (I Q : repair_state -> Prop) (tracking : bool)
    (d : deployment) (p : provider) (question : text) :
  (forall st, I st -> Q st) ->
  (forall st st',
      I st -> loop_condition st = true ->
      repair_iteration tracking d p question st = Ok (st', false) -> I st') ->
  (forall st st',
      I st -> loop_condition st = true ->
      repair_iteration tracking d p question st = Ok (st', true) -> Q st') ->
  forall passes st st',
    I st -> repair_loop passes tracking d p question st = Ok st' -> Q st'.
Proof.
  intros HIQ Hgo Hbrk. induction passes as [|n IH]; intros st st' HI H; simpl in H.
  - injection H as <-. now apply HIQ.
  - fold (loop_condition st) in H.
    destruct (loop_condition st) eqn:C; [|injection H as <-; now apply HIQ].
    destruct (repair_iteration tracking d p question st) as [[st1 [|]]|e] eqn:E;
      [| |discriminate].
    + injection H as <-. now apply (Hbrk st).
    + apply (IH st1); [|exact H]. now apply (Hgo st).
Qed.

Lemma repair_from_rule (I Q : repair_state -> Prop) (tracking : bool)
    (d : deployment) (p : provider) (question : text) :
  (forall st, I st -> Q st) ->
  (forall st st',
      I st -> loop_condition st = true ->
      repair_iteration tracking d p question st = Ok (st', false) -> I st') ->
  (forall st st',
      I st -> loop_condition st = true ->
      repair_iteration tracking d p question st = Ok (st', true) -> Q st') ->
  forall st st', I st -> repair_from tracking d p question st = Ok st' -> Q st'.
Proof.
  intros HIQ Hgo Hbrk st st' HI. unfold repair_from.
  destruct (negb (is_valid st)).
  - now apply repair_loop_rule with (I := I).
  - intros H. injection H as <-. now apply HIQ.
Qed.

Lemma generate_aql_session_inv (d : deployment) (p : provider) (question : text)
    (st : repair_state) :
  generate_aql_session d p question = Ok st ->
  exists result,
    translate_to_aql p question = Ok result /\
    repair_from true d p question (first_validation d (default [] (query_key result)))
    = Ok st.
Proof.
  unfold generate_aql_session.
  destruct (translate_to_aql p question) as [result|e]; [|discriminate].
  intros H. now exists result.
Qed.

Lemma repair_from_current (tracking : bool) (d : deployment) (p : provider)
    (question query : text) (st : repair_state) :
  repair_from tracking d p question (first_validation d query) = Ok st ->
  current_is_latest st \/ current_is_previous st.
Proof.
  apply (repair_from_rule current_is_latest
           (fun s => current_is_latest s \/ current_is_previous s)).
  - intros s H. now left.
  - intros s s' H _ E.
    destruct (current_is_latest_step _ _ _ _ _ _ _ H E) as [H'|[H' _]];
      [assumption|discriminate].
  - intros s s' H _ E.
    destruct (current_is_latest_step _ _ _ _ _ _ _ H E) as [H'|[_ H']];
      [now left|now right].
  - apply current_is_latest_first.
Qed.

(** C3, as amended.  The predicate of the claim, that [currentQuery] is
    the candidate of the last recorded attempt, or the original query when
    no attempt is recorded, holds after the first validation and is kept by
    every pass that submits its candidate to the validation service; so it
    holds wherever the loop goes on.  A pass records its attempt before it
    looks at the candidate: when the candidate is empty, or is the query
    that the repair call was given, the pass does not submit it, leaves
    [currentQuery] as it was and ends the loop.  A session therefore ends
    either with the predicate, or, after such a pass, with [currentQuery]
    equal to the candidate of the attempt before the last one, or to the
    original query when the last attempt is the only one.  This holds in
    the [query] route and in the [generate_aql] route alike. *)
Theorem current_query_invariant :
  (forall d query, current_is_latest (first_validation d query))
  /\ (forall tracking d p question st st' brk,
         current_is_latest st ->
         repair_iteration tracking d p question st = Ok (st', brk) ->
         current_is_latest st' \/ (brk = true /\ current_is_previous st'))
  /\ (forall friendly d p question st,
         query_session friendly d p question = Ok st ->
         current_is_latest st \/ current_is_previous st)
  /\ (forall d p question st,
         generate_aql_session d p question = Ok st ->
         current_is_latest st \/ current_is_previous st)
  /\ (forall st,
         current_is_latest st ->
         (attempts_made st = [] ->
          currentQuery (validation_of st) = originalQuery (validation_of st))
         /\ (forall candidate,
                last_candidate (attempts_made st) = Some candidate ->
                currentQuery (validation_of st) = candidate)).
Proof.
  split; [exact current_is_latest_first|].
  split; [exact current_is_latest_step|].
  split; [|split].
  - intros friendly d p question st H.
    apply query_session_inv in H as (result & st0 & _ & Hloop & ->).
    apply repair_from_current in Hloop.
    destruct (finish_failed_facts friendly st0)
      as (_ & F2 & _ & F4 & F5 & F6 & _).
    unfold current_is_latest, current_is_previous in *.
    now rewrite F2, F4, F5, F6.
  - intros d p question st H.
    apply generate_aql_session_inv in H as (result & _ & Hloop).
    now apply repair_from_current in Hloop.
  - intros st I. unfold current_is_latest, latest in I. split.
    + intros E. now rewrite I, E.
    + intros candidate Hlast. now rewrite I, Hlast.
Qed.

Lemma current_query_invariant_witness :
  exists st,
    query_session plain_message (deployed rejecting_service)
      (numbering_translator "SELECT 0") "how many files" = Ok st /\
    (current_is_latest st \/ current_is_previous st) /\
    last_candidate (attempts_made st) = Some ("SELECT 5" : text) /\
    currentQuery (validation_of st) = "SELECT 5"%string.
Proof.
  eexists. split; [vm_compute; reflexivity|]. split.
  - apply (proj1 (proj2 (proj2 current_query_invariant)) plain_message
             (deployed rejecting_service) (numbering_translator "SELECT 0")
             "how many files").
    vm_compute. reflexivity.
  - split; vm_compute; reflexivity.
Defined.

(** An attempt is recorded before its candidate is looked at: when the
    translator hands back an empty query, the attempt list ends with the
    empty candidate while [currentQuery] is still the original query. *)
Lemma current_query_not_last_candidate :
  match query_session plain_message (deployed rejecting_service)
          (constant_translator "SELECT 0" "") "how many files" with
  | Ok st =>
      last_candidate (attempts_made st) = Some []
      /\ currentQuery (validation_of st) = "SELECT 0"%string
      /\ originalQuery (validation_of st) = "SELECT 0"%string
      /\ length (attempts_made st) = 1
  | Raise _ => False
  end.
Proof. vm_compute. repeat split; reflexivity. Qed.

(** *** Stall detection *)

(** C1, at the failing input.  The translation is [SELECT a], the service
    rejects every query, and every repair call answers [SELECT b].  On the
    second pass the candidate is identical to [currentQuery], yet the
    [query] route submits it again, and again on the later passes: the
    session ends with five recorded attempts, all [SELECT b], and six
    requests to the service.  The [generate_aql] route, which assigns
    [sanitized_query = fixed_query], stops at the second repair call. *)
Theorem stall_undetected_in_query_route :
  match query_session plain_message (deployed rejecting_service)
          (constant_translator "SELECT a" "SELECT b") "how many files",
        generate_aql_session (deployed rejecting_service)
          (constant_translator "SELECT a" "SELECT b") "how many files" with
  | Ok st, Ok st' =>
      map attempt_query (attempts_made st)
      = ["SELECT b" : text; "SELECT b" : text; "SELECT b" : text;
         "SELECT b" : text; "SELECT b" : text]
      /\ length (attempts_made st) = maxAttempts (validation_of st)
      /\ service_calls st = 6
      /\ status (validation_of st) = "failed"%string
      /\ currentQuery (validation_of st) = "SELECT b"%string
      /\ map attempt_query (attempts_made st') = ["SELECT b" : text; "SELECT b" : text]
      /\ service_calls st' = 2
      /\ message (validation_of st') = "AI could not fix the query"%string
  | _, _ => False
  end.
Proof. vm_compute. repeat split; reflexivity. Qed.

(** *** Transport errors *)

Lemma validate_query_failure (d : deployment) (calls : nat) (query e : text) :
  service d calls (fst (preprocess_query (aql_date_expressions d) (now d) query))
    = Failure e ->
  validate_query d calls query
  = (false, Some ("Error during query validation: " ++ e), NO_REPORT).
Proof. unfold validate_query. now intros ->. Qed.

Lemma repair_iteration_submitted (tracking : bool) (d : deployment) (p : provider)
    (question : text) (st : repair_state) (fr : fix_result) :
  fix_invalid_query p question (sanitized_query st) (feedback_of st) = Ok fr ->
  submitted (sanitized_query st) (default [] (fixed_query_key fr)) = true ->
  exists st',
    repair_iteration tracking d p question st = Ok (st', is_valid st') /\
    retry_count st' = S (retry_count st) /\
    length (attempts_made st') = S (length (attempts_made st)) /\
    (is_valid st', error_message st', error_report_of st')
      = validate_query d (service_calls st) (default [] (fixed_query_key fr)).
Proof.
  intros Hfix Hsub. unfold repair_iteration. fold (feedback_of st). rewrite Hfix.
  cbv zeta. unfold submitted in Hsub. rewrite Hsub.
  destruct (validate_query d (service_calls st) (default [] (fixed_query_key fr)))
    as [[v m] r].
  match goal with
  | |- exists st', Ok (?s, ?b) = _ /\ _ => exists s
  end.
  split; [reflexivity|]. simpl. rewrite length_app. simpl.
  repeat split; lia.
Qed.

Lemma repair_iteration_stalled (tracking : bool) (d : deployment) (p : provider)
    (question : text) (st : repair_state) (fr : fix_result) :
  fix_invalid_query p question (sanitized_query st) (feedback_of st) = Ok fr ->
  submitted (sanitized_query st) (default [] (fixed_query_key fr)) = false ->
  exists st',
    repair_iteration tracking d p question st = Ok (st', true) /\
    is_valid st' = is_valid st /\
    service_calls st' = service_calls st /\
    retry_count st' = S (retry_count st).
Proof.
  intros Hfix Hsub. unfold repair_iteration. fold (feedback_of st). rewrite Hfix.
  cbv zeta. unfold submitted in Hsub. rewrite Hsub.
  eexists. split; [reflexivity|]. simpl. repeat split.
Qed.

Lemma repair_iteration_returns (tracking : bool) (d : deployment) (p : provider)
    (question : text) (st : repair_state) :
  repairs_return p ->
  exists st' brk, repair_iteration tracking d p question st = Ok (st', brk).
Proof.
  intros Hp. destruct (Hp question (sanitized_query st) (feedback_of st)) as [fr Hfix].
  destruct (submitted (sanitized_query st) (default [] (fixed_query_key fr))) eqn:S.
  - destruct (repair_iteration_submitted tracking d p question st fr Hfix S)
      as (st' & E & _). eauto.
  - destruct (repair_iteration_stalled tracking d p question st fr Hfix S)
      as (st' & E & _). eauto.
Qed.

Lemma repair_loop_returns (tracking : bool) (d : deployment) (p : provider)
    (question : text) :
  repairs_return p ->
  forall passes st, exists st', repair_loop passes tracking d p question st = Ok st'.
Proof.
  intros Hp. induction passes as [|n IH]; intros st; simpl; [eauto|].
  destruct (negb (is_valid st) && (retry_count st <? max_retries)); [|eauto].
  destruct (repair_iteration_returns tracking d p question st Hp) as (st' & brk & ->).
  destruct brk; eauto.
Qed.

Lemma repair_loop_first_pass (tracking : bool) (d : deployment) (p : provider)
    (question : text) (passes : nat) (st st' : repair_state) :
  loop_condition st = true ->
  repair_loop (S passes) tracking d p question st = Ok st' ->
  1 <= retry_count st'.
Proof.
  intros C H. simpl in H. fold (loop_condition st) in H. rewrite C in H.
  destruct (repair_iteration tracking d p question st) as [[st1 brk]|e] eqn:E;
    [|discriminate].
  pose proof E as E'.
  apply repair_iteration_inv in E' as (fr & _ & Hrc & _).
  destruct brk.
  - injection H as <-. lia.
  - apply (repair_loop_invariant (fun s => 1 <= retry_count s) tracking d p question)
      with (passes := passes) (st := st1); [|lia|exact H].
    intros s s' b Hs _ Es.
    apply repair_iteration_inv in Es as (fr' & _ & Hrc' & _). lia.
Qed.

(** C6, as amended.  A transport error raised while the validation
    service is called is turned by [validate_query] into an ordinary
    invalid outcome on every call, the first one included.  Inside the
    loop it costs one pass and the loop goes on.  At the first validation
    the session does not fail hard either: it enters the repair loop, and
    returns normally after at least one pass when the provider returns.
    An error inside the Claude provider's repair call is caught by the
    provider, which hands the invalid query back unchanged; a pass whose
    candidate is [sanitized_query] submits nothing and ends the loop. *)
Theorem transport_errors_become_invalid :
  (forall d calls query e,
      service d calls (fst (preprocess_query (aql_date_expressions d) (now d) query))
        = Failure e ->
      validate_query d calls query
      = (false, Some ("Error during query validation: " ++ e), NO_REPORT))
  /\ (forall tracking d p question st fr e,
         fix_invalid_query p question (sanitized_query st) (feedback_of st) = Ok fr ->
         submitted (sanitized_query st) (default [] (fixed_query_key fr)) = true ->
         service d (service_calls st)
           (fst (preprocess_query (aql_date_expressions d) (now d)
                   (default [] (fixed_query_key fr)))) = Failure e ->
         exists st',
           repair_iteration tracking d p question st = Ok (st', false) /\
           retry_count st' = S (retry_count st) /\
           length (attempts_made st') = S (length (attempts_made st)) /\
           is_valid st' = false /\
           error_message st' = Some ("Error during query validation: " ++ e))
  /\ (forall friendly d p question result e,
         translate_to_aql p question = Ok result ->
         service d 0
           (fst (preprocess_query (aql_date_expressions d) (now d)
                   (default [] (query_key result)))) = Failure e ->
         repairs_return p ->
         exists st,
           query_session friendly d p question = Ok st /\ 1 <= retry_count st)
  /\ (forall key messages question invalid_query fb e,
         usable key <> None ->
         messages question invalid_query fb = Raise e ->
         claude_fix_invalid_query key messages question invalid_query fb
         = Ok {| fixed_query_key := Some invalid_query;
                 explanation_key := Some ("Error fixing query: " ++ e) |})
  /\ (forall tracking d p question st fr,
         fix_invalid_query p question (sanitized_query st) (feedback_of st) = Ok fr ->
         default [] (fixed_query_key fr) = sanitized_query st ->
         exists st',
           repair_iteration tracking d p question st = Ok (st', true) /\
           is_valid st' = is_valid st /\
           service_calls st' = service_calls st).
Proof.
  split; [exact validate_query_failure|]. split; [|split; [|split]].
  - intros tracking d p question st fr e Hfix Hsub Hfail.
    destruct (repair_iteration_submitted tracking d p question st fr Hfix Hsub)
      as (st' & E & Hrc & Hlen & Hv).
    rewrite (validate_query_failure _ _ _ _ Hfail) in Hv.
    injection Hv as Hv1 Hv2 _. exists st'. rewrite Hv1 in E. auto.
  - intros friendly d p question result e Htr Hfail Hp.
    unfold query_session. rewrite Htr.
    set (st0 := first_validation d (default [] (query_key result))).
    destruct (first_validation_facts d (default [] (query_key result)))
      as (F1 & _ & _ & _ & _ & _ & _ & _ & F9).
    fold st0 in F1, F9. rewrite (validate_query_failure _ _ _ _ Hfail) in F9.
    injection F9 as Hv _ _.
    unfold repair_from. rewrite Hv. simpl negb. cbv iota.
    destruct (repair_loop_returns false d p question Hp max_retries st0) as [st1 E].
    rewrite E. eexists. split; [reflexivity|].
    destruct (finish_failed_facts friendly st1) as (-> & _).
    apply (repair_loop_first_pass false d p question 4 st0 st1); [|exact E].
    unfold loop_condition. now rewrite Hv, F1.
  - intros key messages question invalid_query fb e Hkey Hraise.
    unfold claude_fix_invalid_query. destruct (usable key); [|contradiction].
    now rewrite Hraise.
  - intros tracking d p question st fr Hfix Hsame.
    destruct (repair_iteration_stalled tracking d p question st fr Hfix)
      as (st' & E & Hv & Hc & _).
    + unfold submitted. rewrite Hsame, text_eqb_refl. apply andb_false_r.
    + eauto.
Qed.

Lemma transport_errors_become_invalid_witness :
  validate_query (deployed (timing_out_at 0)) 0 "SELECT a"
  = (false, Some ("Error during query validation: Read timed out" : text), NO_REPORT)
  /\ (exists st',
         repair_iteration false (deployed (timing_out_at 1))
           (constant_translator "SELECT a" "SELECT b") "how many files"
           (first_validation (deployed (timing_out_at 1)) "SELECT a") = Ok (st', false)
         /\ retry_count st' = 1
         /\ length (attempts_made st') = 1
         /\ is_valid st' = false
         /\ error_message st'
            = Some ("Error during query validation: Read timed out" : text))
  /\ (exists st,
         query_session plain_message (deployed (timing_out_at 0))
           (constant_translator "SELECT a" "SELECT b") "how many files" = Ok st
         /\ 1 <= retry_count st)
  /\ claude_fix_invalid_query (Some ("sk-key" : text))
       (fun _ _ _ => Raise "Connection refused") "how many files" "SELECT a"
       (feedback_of (first_validation (deployed rejecting_service) "SELECT a"))
     = Ok {| fixed_query_key := Some ("SELECT a" : text);
             explanation_key := Some ("Error fixing query: Connection refused" : text) |}
  /\ (exists st',
         repair_iteration false (deployed rejecting_service)
           (unreachable_claude "SELECT a") "how many files"
           (first_validation (deployed rejecting_service) "SELECT a") = Ok (st', true)
         /\ is_valid st' = false
         /\ service_calls st' = 1).
Proof.
  destruct transport_errors_become_invalid as (T1 & T2 & T3 & T4 & T5).
  split; [|split; [|split; [|split]]].
  - apply (T1 (deployed (timing_out_at 0)) 0 "SELECT a" "Read timed out"). reflexivity.
  - apply (T2 false (deployed (timing_out_at 1))
              (constant_translator "SELECT a" "SELECT b") "how many files"
              (first_validation (deployed (timing_out_at 1)) "SELECT a")
              {| fixed_query_key := Some ("SELECT b" : text);
                 explanation_key := Some ("changed the query" : text) |}
              "Read timed out"); reflexivity.
  - apply (T3 plain_message (deployed (timing_out_at 0))
              (constant_translator "SELECT a" "SELECT b") "how many files"
              {| understanding := "count files"; query_key := Some ("SELECT a" : text);
                 explanation := "counts the files" |} "Read timed out").
    + reflexivity.
    + reflexivity.
    + intros question invalid_query fb. eexists. reflexivity.
  - apply (T4 (Some ("sk-key" : text)) (fun _ _ _ => Raise "Connection refused")
              "how many files" "SELECT a"
              (feedback_of (first_validation (deployed rejecting_service) "SELECT a"))
              "Connection refused").
    + discriminate.
    + reflexivity.
  - apply (T5 false (deployed rejecting_service) (unreachable_claude "SELECT a")
              "how many files"
              (first_validation (deployed rejecting_service) "SELECT a")
              {| fixed_query_key := Some ("SELECT a" : text);
                 explanation_key :=
                   Some ("Error fixing query: Connection refused" : text) |});
      reflexivity.
Defined.

(** A timeout of the very first validation does not fail the request: the
    session enters the repair loop, and here the repaired query is
    accepted. *)
Lemma first_timeout_enters_repair_loop :
  validate_query (deployed timing_out_first) 0 "SELECT a"
  = (false, Some ("Error during query validation: Read timed out" : text), NO_REPORT)
  /\ match query_session plain_message (deployed timing_out_first)
             (constant_translator "SELECT a" "SELECT b") "how many files" with
     | Ok st =>
         retry_count st = 1
         /\ length (attempts_made st) = 1
         /\ status (validation_of st) = "valid"%string
         /\ result_query st = "SELECT b"%string
     | Raise _ => False
     end.
Proof. split; vm_compute; repeat split; reflexivity. Qed.

(** *** Rule-based and fallback repair *)

Lemma apply_rules_grows (rules : list rule) (query : text) (changes : list text) :
  exists extra,
    snd (apply_rules rules query changes) = changes ++ extra /\
    (extra = [] -> fst (apply_rules rules query changes) = query).
Proof.
  revert query changes. induction rules as [|[pattern replacement] rest IH];
    intros query changes; simpl.
  - exists []. now rewrite app_nil_r.
  - destruct (usable replacement) as [repl|]; [|apply IH].
    destruct (0 <? _); [|apply IH].
    match goal with
    | |- context [apply_rules rest ?q (changes ++ [?c])] =>
        destruct (IH q (changes ++ [c])) as (extra & E1 & E2)
    end.
    exists (("Replaced " ++ decimal
               (length (re_findall FLAG_I (re_compile pattern) query))
               ++ " instances of " ++ pattern ++ " with " ++ repl) :: extra).
    rewrite E1, <- app_assoc. split; [reflexivity|discriminate].
Qed.

Lemma apply_rules_group_by_grows (rules : list rule) (section columns query : text)
    (changes : list text) :
  exists extra,
    snd (apply_rules_group_by rules section columns query changes) = changes ++ extra /\
    (extra = [] -> fst (apply_rules_group_by rules section columns query changes) = query).
Proof.
  revert query changes. induction rules as [|[pattern replacement] rest IH];
    intros query changes; simpl.
  - exists []. now rewrite app_nil_r.
  - destruct (usable replacement) as [repl|]; [|apply IH].
    destruct (re_search FLAG_I (re_compile pattern) columns); [|apply IH].
    match goal with
    | |- context [apply_rules_group_by rest _ _ ?q (changes ++ [?c])] =>
        destruct (IH q (changes ++ [c])) as (extra & E1 & E2)
    end.
    exists (GROUP_BY_NOTE :: extra).
    rewrite E1, <- app_assoc. split; [reflexivity|discriminate].
Qed.

(** When no rule changed anything the query is returned as it came. *)
Lemma suggest_fixes_changes_none (rules : list rule) (query : text) :
  snd (suggest_fixes_changes rules query None) = [] ->
  fst (suggest_fixes_changes rules query None) = query.
Proof.
  unfold suggest_fixes_changes.
  destruct (apply_rules_grows rules query []) as (extra1 & A1 & A2).
  destruct (apply_rules rules query []) as [q1 c1]. simpl in A1, A2. subst c1.
  destruct (re_search FLAG_IS (re_compile GROUP_BY_PATTERN) q1) as [m|].
  - destruct (apply_rules_group_by_grows rules (group0 q1 m) (strip (group 1 m)) q1 extra1)
      as (extra2 & B1 & B2).
    destruct (apply_rules_group_by rules (group0 q1 m) (strip (group 1 m)) q1 extra1)
      as [q2 c2].
    simpl in *. subst c2. rewrite app_nil_r. intros H.
    apply app_eq_nil in H as [-> ->]. rewrite B2 by reflexivity. now apply A2.
  - simpl. rewrite app_nil_r. intros ->. now apply A2.
Qed.

Lemma suggest_fixes_changes_report (rules : list rule) (query : text)
    (error_details : option error_report) :
  suggest_fixes_changes rules query error_details
  = (fst (suggest_fixes_changes rules query None),
     snd (suggest_fixes_changes rules query None) ++ report_changes error_details).
Proof.
  unfold suggest_fixes_changes.
  destruct (apply_rules rules query []) as [q1 c1].
  destruct (re_search FLAG_IS (re_compile GROUP_BY_PATTERN) q1) as [m|].
  - destruct (apply_rules_group_by rules (group0 q1 m) (strip (group 1 m)) q1 c1)
      as [q2 c2].
    simpl. now rewrite app_nil_r.
  - simpl. now rewrite app_nil_r.
Qed.

(** The query that [suggest_fixes] returns does not depend on the error
    message nor on the error report: it is the query of [rewrite]. *)
Lemma suggest_fixes_query (query : text) (error_message : option text)
    (error_details : option error_report) :
  fst (suggest_fixes query error_message error_details) = fst (rewrite query).
Proof.
  unfold suggest_fixes, suggest_fixes_with, rewrite.
  rewrite (suggest_fixes_changes_report _ _ error_details).
  pose proof (suggest_fixes_changes_none UNSUPPORTED_PATTERNS query) as N.
  destruct (suggest_fixes_changes UNSUPPORTED_PATTERNS query None) as [fq ch].
  simpl in *. destruct ch as [|c ch]; simpl.
  - destruct (report_changes error_details); simpl; [reflexivity|].
    now apply N.
  - reflexivity.
Qed.

Lemma base_fix_rule_based (invalid_query : text) (fb : feedback) :
  fst (rewrite invalid_query) <> invalid_query ->
  fst (base_fix_strategy invalid_query fb) = RuleBased /\
  fixed_query_key (snd (base_fix_strategy invalid_query fb))
  = Some (fst (rewrite invalid_query)).
Proof.
  intros H. unfold base_fix_strategy.
  pose proof (suggest_fixes_query invalid_query (error fb) (Some (error_details fb))) as Q.
  destruct (suggest_fixes invalid_query (error fb) (Some (error_details fb))) as [fq ex].
  simpl in Q. subst fq.
  apply text_eqb_neq in H. now rewrite H.
Qed.

Lemma base_fix_fallback (invalid_query : text) (fb : feedback) :
  fst (rewrite invalid_query) = invalid_query ->
  base_fix_strategy invalid_query fb = (Fallback, fallback_fix invalid_query (error fb)).
Proof.
  intros H. unfold base_fix_strategy.
  pose proof (suggest_fixes_query invalid_query (error fb) (Some (error_details fb))) as Q.
  destruct (suggest_fixes invalid_query (error fb) (Some (error_details fb))) as [fq ex].
  simpl in Q. subst fq. rewrite H. now rewrite text_eqb_refl.
Qed.

(** ** The rule table *)

Lemma apply_rules_rewriting (rules : list rule) (query : text) (changes : list text) :
  apply_rules (rewriting_rules rules) query changes = apply_rules rules query changes.
Proof.
  revert query changes. induction rules as [|[pattern replacement] rest IH];
    intros query changes; [reflexivity|].
  unfold rewriting_rules in *. simpl. unfold has_replacement at 1. simpl.
  destruct (usable replacement) as [repl|] eqn:U; simpl; [|apply IH].
  rewrite U. destruct (0 <? _); apply IH.
Qed.

Lemma apply_rules_group_by_rewriting (rules : list rule) (section columns query : text)
    (changes : list text) :
  apply_rules_group_by (rewriting_rules rules) section columns query changes
  = apply_rules_group_by rules section columns query changes.
Proof.
  revert query changes. induction rules as [|[pattern replacement] rest IH];
    intros query changes; [reflexivity|].
  unfold rewriting_rules in *. simpl. unfold has_replacement at 1. simpl.
  destruct (usable replacement) as [repl|] eqn:U; simpl; [|apply IH].
  rewrite U. destruct (re_search FLAG_I (re_compile pattern) columns); apply IH.
Qed.

Lemma unsupported_issue_reported (rules : list rule) (pattern query : text) :
  In (pattern, None) rules ->
  re_findall FLAG_I (re_compile pattern) query <> [] ->
  exists i,
    In i (unsupported_issues rules query) /\
    issue_pattern i = Some pattern /\
    issue_matches i = re_findall FLAG_I (re_compile pattern) query /\
    suggestion i = "AQL does not support " ++ pattern.
Proof.
  intros Hin Hm. induction rules as [|[pat repl] rest IH]; [contradiction|].
  simpl. destruct Hin as [E|Hin].
  - injection E as -> ->.
    destruct (re_findall FLAG_I (re_compile pattern) query) as [|m ms] eqn:F;
      [contradiction|].
    eexists. split; [left; reflexivity|]. simpl. now rewrite <- F.
  - destruct (IH Hin) as (i & I1 & I2).
    exists i. split; [|exact I2].
    destruct (re_findall FLAG_I (re_compile pat) query); [assumption|now right].
Qed.

(** C9, as amended.  An entry whose replacement is null never alters the
    query, and in the rewriter it adds no description either: for every
    rule table and every query, [suggest_fixes] returns what it returns
    with those entries removed from the table.  The diagnostic of such an
    entry is produced by [AQLValidator.validate_query]: whenever the
    pattern matches, the issues hold one that names the pattern and says
    that AQL does not support it, and the query is reported as having
    issues. *)
Theorem null_rules_only_diagnosed_by_validator :
  (forall rules query error_message error_details,
      suggest_fixes_with rules query error_message error_details
      = suggest_fixes_with (rewriting_rules rules) query error_message error_details)
  /\ (forall rules pattern query,
         In (pattern, None) rules ->
         re_findall FLAG_I (re_compile pattern) query <> [] ->
         fst (validator_check_with rules query) = false /\
         exists i,
           In i (snd (validator_check_with rules query)) /\
           issue_pattern i = Some pattern /\
           suggestion i = "AQL does not support " ++ pattern).
Proof.
  split.
  - intros rules query error_message error_details.
    unfold suggest_fixes_with, suggest_fixes_changes.
    rewrite apply_rules_rewriting.
    destruct (apply_rules rules query []) as [q1 c1].
    destruct (re_search FLAG_IS (re_compile GROUP_BY_PATTERN) q1) as [m|];
      [|reflexivity].
    now rewrite apply_rules_group_by_rewriting.
  - intros rules pattern query Hin Hm.
    destruct (unsupported_issue_reported rules pattern query Hin Hm)
      as (i & I1 & I2 & _ & I4).
    unfold validator_check_with. simpl. split.
    + apply Nat.eqb_neq. intros E. apply length_zero_iff_nil in E.
      apply app_eq_nil in E as [E _]. rewrite E in I1. contradiction.
    + exists i. split; [|now split]. apply in_or_app. now left.
Qed.

Lemma null_rules_only_diagnosed_by_validator_witness :
  fst (validator_check_with UNSUPPORTED_PATTERNS "SELECT DATE_ADD(createTime)") = false
  /\ exists i,
       In i (snd (validator_check_with UNSUPPORTED_PATTERNS "SELECT DATE_ADD(createTime)"))
       /\ issue_pattern i = Some ("DATE_ADD\s*\(" : text)
       /\ suggestion i = "AQL does not support " ++ "DATE_ADD\s*\(".
Proof.
  apply (proj2 null_rules_only_diagnosed_by_validator UNSUPPORTED_PATTERNS
           "DATE_ADD\s*\(" "SELECT DATE_ADD(createTime)").
  - vm_compute. tauto.
  - vm_compute. discriminate.
Defined.

(** The pattern of a null entry matches, and the rewriter returns the
    query with no description at all. *)
Lemma matched_null_rule_not_described :
  In (unsupported "DATE_ADD\s*\(") UNSUPPORTED_PATTERNS
  /\ re_findall FLAG_I (re_compile "DATE_ADD\s*\(") "SELECT DATE_ADD(createTime)"
     = ["DATE_ADD(" : text]
  /\ rewrite "SELECT DATE_ADD(createTime)" = ("SELECT DATE_ADD(createTime)" : text, [])
  /\ suggest_fixes "SELECT DATE_ADD(createTime)" None None
     = ("SELECT DATE_ADD(createTime)" : text, NO_FIX).
Proof. vm_compute. repeat split; tauto. Qed.

(** ** Characters *)

Ltac each_char c :=
  destruct c as [[] [] [] [] [] [] [] []]; vm_compute; try reflexivity; try discriminate.

Lemma word_not_space (c : ascii) : is_word c = true -> is_space c = false.
Proof. each_char c. Qed.

Lemma word_not_paren (c : ascii) :
  is_word c = true -> eqc c "(" = false /\ eqc c ")" = false /\ eqc c "," = false.
Proof. each_char c; intros; repeat split; discriminate. Qed.

Lemma space_not_paren (c : ascii) :
  is_space c = true -> eqc c "(" = false /\ eqc c ")" = false.
Proof. each_char c; intros; repeat split; discriminate. Qed.

Lemma ci_paren (c : ascii) :
  cset_mem FLAG_I (CChar "(") c = eqc c "(" /\ cset_mem FLAG_I (CChar ")") c = eqc c ")".
Proof. each_char c; split; reflexivity. Qed.

Lemma upper_is_word (c : ascii) : is_upper c = true -> is_word c = true.
Proof. each_char c. Qed.

Lemma ci_eq_upper_word (k c : ascii) :
  is_upper k = true -> ci_eq k c = true -> is_word c = true.
Proof.
  unfold ci_eq. intros Hk H. apply eqc_eq in H.
  assert (L : is_lower (lower_char k) = true) by (revert Hk; each_char k).
  rewrite H in L. revert L. each_char c.
Qed.

(** ** The scan agrees with the matcher *)

Lemma orelse_none (a : outcome) : orelse a None = a.
Proof. now destruct a. Qed.

Lemma star_loop_ext (p : ascii -> bool) (greedy : bool) (k1 k2 : nat -> text -> outcome) :
  (forall pos s, k1 pos s = k2 pos s) ->
  forall s pos, star_loop p greedy k1 pos s = star_loop p greedy k2 pos s.
Proof.
  intros H. induction s as [|c s IH]; intros pos; simpl; [apply H|].
  now rewrite IH, H.
Qed.

Lemma close_scan (s : text) (pos : nat) (g : groups) :
  rmatch FLAG_I CLOSE_RE pos s g finish
  = match run PClose s with
    | Some (n, _) => Some (pos + n, g)
    | None => None
    end.
Proof.
  unfold CLOSE_RE. cbn [rmatch]. revert pos.
  induction s as [|c s IH]; intros pos; [reflexivity|].
  cbn [star_loop run step]. change (cset_mem FLAG_I CSpace c) with (is_space c).
  rewrite (proj2 (ci_paren c)).
  destruct (is_space c) eqn:Sp.
  - rewrite (proj2 (space_not_paren c Sp)), orelse_none, IH.
    destruct (run PClose s) as [[n w]|]; [|reflexivity]. f_equal. f_equal. lia.
  - destruct (eqc c ")"); [|reflexivity]. unfold finish. f_equal. f_equal. lia.
Qed.

Lemma run_close_word (s : text) (n : nat) (w : text) :
  run PClose s = Some (n, w) -> w = [].
Proof.
  revert n w. induction s as [|c s IH]; intros n w; cbn [run step]; [discriminate|].
  destruct (is_space c).
  - destruct (run PClose s) as [[n' w']|]; [|discriminate].
    intros H. injection H as _ <-. now apply (IH n').
  - destruct (eqc c ")"); [|discriminate]. now intros H; injection H as _ <-.
Qed.

Lemma word_scan (full : text) (g : groups) (pos0 : nat) :
  forall s pre,
    full = pre ++ s ->
    star_loop (cset_mem FLAG_I CWord) true
      (fun p2 s2 => rmatch FLAG_I CLOSE_RE p2 s2 ((1, firstn (p2 - pos0) full) :: g) finish)
      (pos0 + length pre) s
    = match run PWord s with
      | Some (n, w) => Some (pos0 + length pre + n, (1, pre ++ w) :: g)
      | None => None
      end.
Proof.
  induction s as [|c s IH]; intros pre E.
  - cbn [star_loop run]. now rewrite close_scan.
  - cbn [star_loop run step]. change (cset_mem FLAG_I CWord c) with (is_word c).
    destruct (is_word c) eqn:W.
    + rewrite close_scan. cbn [run step]. rewrite (word_not_space c W).
      destruct (word_not_paren c W) as (_ & -> & _). rewrite orelse_none.
      specialize (IH (pre ++ [c])). rewrite <- app_assoc in IH. specialize (IH E).
      rewrite length_app in IH. simpl length in IH.
      replace (S (pos0 + length pre)) with (pos0 + (length pre + 1)) by lia.
      rewrite IH. destruct (run PWord s) as [[n w]|]; [|reflexivity].
      rewrite <- app_assoc. simpl. f_equal. f_equal. lia.
    + rewrite close_scan. cbn [run step].
      replace (pos0 + length pre - pos0) with (length pre) by lia.
      rewrite E, firstn_app, firstn_all, Nat.sub_diag. simpl. rewrite !app_nil_r.
      destruct (is_space c).
      * destruct (run PClose s) as [[n w]|] eqn:R; [|reflexivity].
        apply run_close_word in R. subst w. now rewrite app_nil_r.
      * destruct (eqc c ")"); [|reflexivity]. now rewrite app_nil_r.
Qed.

Lemma open_scan (s : text) (pos : nat) (g : groups) :
  rmatch FLAG_I OPEN_RE pos s g finish
  = match run POpen s with
    | Some (n, w) => Some (pos + n, (1, w) :: g)
    | None => None
    end.
Proof.
  unfold OPEN_RE, WORD_RE. cbn [rmatch]. revert pos.
  induction s as [|c s IH]; intros pos; [reflexivity|].
  cbn [star_loop run step]. change (cset_mem FLAG_I CSpace c) with (is_space c).
  change (cset_mem FLAG_I CWord c) with (is_word c).
  destruct (is_space c) eqn:Sp.
  - destruct (is_word c) eqn:W; [apply word_not_space in W; congruence|].
    rewrite orelse_none, IH.
    destruct (run POpen s) as [[n w]|]; [|reflexivity]. f_equal. f_equal. lia.
  - destruct (is_word c) eqn:W; [|reflexivity].
    pose proof (word_scan (c :: s) g pos s [c] eq_refl) as H.
    simpl length in H. replace (pos + 1) with (S pos) in H by lia.
    rewrite H. destruct (run PWord s) as [[n w]|]; [|reflexivity].
    simpl. f_equal. f_equal. lia.
Qed.

Lemma paren_scan (s : text) (pos : nat) (g : groups) :
  rmatch FLAG_I PAREN_RE pos s g finish
  = match run PParen s with
    | Some (n, w) => Some (pos + n, (1, w) :: g)
    | None => None
    end.
Proof.
  unfold PAREN_RE. cbn [rmatch]. revert pos.
  induction s as [|c s IH]; intros pos; [reflexivity|].
  cbn [star_loop run step]. change (cset_mem FLAG_I CSpace c) with (is_space c).
  rewrite (proj1 (ci_paren c)).
  destruct (is_space c) eqn:Sp.
  - rewrite (proj1 (space_not_paren c Sp)), orelse_none, IH.
    destruct (run PParen s) as [[n w]|]; [|reflexivity]. f_equal. f_equal. lia.
  - destruct (eqc c "("); [|reflexivity].
    rewrite open_scan. destruct (run POpen s) as [[n w]|]; [|reflexivity].
    f_equal. f_equal. lia.
Qed.

Lemma keyword_scan (keyword s : text) (pos : nat) (g : groups) :
  rmatch FLAG_I (keyword_re keyword) pos s g finish
  = match run (after_keyword keyword) s with
    | Some (n, w) => Some (pos + n, (1, w) :: g)
    | None => None
    end.
Proof.
  revert s pos. induction keyword as [|k rest IH]; intros s pos.
  - apply paren_scan.
  - cbn [keyword_re rmatch after_keyword]. destruct s as [|c s]; [reflexivity|].
    cbn [run step]. change (cset_mem FLAG_I (CChar k) c) with (ci_eq k c).
    destruct (ci_eq k c); [|reflexivity].
    rewrite IH. destruct (run (after_keyword rest) s) as [[n w]|]; [|reflexivity].
    f_equal. f_equal. lia.
Qed.

(** The matcher on the compiled pattern of a keyword is the scan. *)
Lemma match_at_keyword (keyword s : text) :
  match_at FLAG_I (keyword_re keyword) s = scanner keyword s.
Proof.
  unfold match_at, scanner. change (fun pos (_ : text) g => Some (pos, g)) with finish.
  rewrite keyword_scan. now destruct (run (after_keyword keyword) s) as [[n w]|].
Qed.

Lemma compiled_patterns :
  re_compile "YEAR\s*\(\s*(\w+)\s*\)" = keyword_re "YEAR"
  /\ re_compile "MONTH\s*\(\s*(\w+)\s*\)" = keyword_re "MONTH"
  /\ re_compile "DAY\s*\(\s*(\w+)\s*\)" = keyword_re "DAY".
Proof. repeat split; vm_compute; reflexivity. Qed.


(** ** Where a scan can match *)

(** A match is not empty and lies within the text. *)
Lemma run_length (s : text) :
  forall ph n w, run ph s = Some (n, w) -> 1 <= n <= length s.
Proof.
  induction s as [|c s IH]; intros ph n w; cbn [run]; [discriminate|].
  destruct (step ph c) as [ph' cap| |]; [|intros H; injection H as <- _; simpl; lia|discriminate].
  destruct (run ph' s) as [[n' w']|] eqn:R; [|discriminate].
  intros H. injection H as <- _. apply IH in R. simpl. lia.
Qed.

(** A match depends only on the characters it spans. *)
Lemma run_local (x : text) :
  forall ph y z n w,
    run ph (x ++ y) = Some (n, w) -> n <= length x -> run ph (x ++ z) = Some (n, w).
Proof.
  induction x as [|c x IH]; intros ph y z n w H Hn.
  - apply run_length in H. simpl in Hn. lia.
  - cbn [app run] in *.
    destruct (step ph c) as [ph' cap| |]; [|assumption|discriminate].
    destruct (run ph' (x ++ y)) as [[n' w']|] eqn:R; [|discriminate].
    injection H as <- <-. simpl in Hn.
    now rewrite (IH ph' y z n' w' R) by lia.
Qed.

Lemma after_keyword_ok (rest : text) :
  Forall (fun c => is_upper c = true /\ ci_eq c "S" = false) rest ->
  phase_ok (after_keyword rest).
Proof. destruct rest; simpl; [trivial|]. intros H. split; [discriminate|assumption]. Qed.

Lemma step_ok (ph ph' : phase) (c : ascii) (cap : bool) :
  phase_ok ph -> step ph c = Next ph' cap -> phase_ok ph'.
Proof.
  destruct ph as [[|k rest]| | | |]; simpl; intros Hok H.
  - discriminate.
  - destruct (ci_eq k c); [|discriminate]. injection H as <- _.
    apply after_keyword_ok. destruct Hok as [_ Hok]. now inversion Hok.
  - destruct (is_space c); [injection H as <- _; exact I|].
    destruct (eqc c "("); [injection H as <- _; exact I|discriminate].
  - destruct (is_space c); [injection H as <- _; exact I|].
    destruct (is_word c); [injection H as <- _; exact I|discriminate].
  - destruct (is_word c); [injection H as <- _; exact I|].
    destruct (is_space c); [injection H as <- _; exact I|].
    destruct (eqc c ")"); discriminate.
  - destruct (is_space c); [injection H as <- _; exact I|].
    destruct (eqc c ")"); discriminate.
Qed.

(** No match runs into a call of [SUBSTRING]. *)
Lemma run_stops_at_call (y : text) (ph : phase) :
  phase_ok ph -> run ph ("SUBSTRING(" ++ y) = None.
Proof.
  destruct ph as [[|k rest]| | | |]; intros Hok; try reflexivity.
  destruct Hok as [_ Hok]. inversion Hok as [|? ? [_ Hk] _]; subst.
  simpl app. cbn [run step]. now rewrite Hk.
Qed.

Lemma run_before_call (x : text) :
  forall ph y n w,
    phase_ok ph ->
    run ph (x ++ "SUBSTRING(" ++ y) = Some (n, w) -> n <= length x.
Proof.
  induction x as [|c x IH]; intros ph y n w Hok H.
  - cbn [app] in H. now rewrite run_stops_at_call in H.
  - cbn [app run] in H.
    destruct (step ph c) as [ph' cap| |] eqn:St; [|injection H as <- _; simpl; lia|discriminate].
    destruct (run ph' (x ++ "SUBSTRING(" ++ y)) as [[n' w']|] eqn:R; [|discriminate].
    injection H as <- _. apply IH in R; [simpl; lia|]. eapply step_ok; eauto.
Qed.

Lemma letters_only (k c : ascii) :
  is_upper k = true -> ci_eq k c = true -> is_upper c || is_lower c = true.
Proof.
  unfold ci_eq. intros Hk H. apply eqc_eq in H.
  assert (L : is_lower (lower_char k) = true) by (revert Hk; each_char k).
  rewrite H in L. revert L. each_char c.
Qed.

Lemma ci_eq_not_letter (k c : ascii) :
  is_upper k = true -> is_upper c || is_lower c = false -> ci_eq k c = false.
Proof.
  intros Hk Hc. destruct (ci_eq k c) eqn:E; [|reflexivity].
  apply (letters_only k c Hk) in E. congruence.
Qed.

Lemma digit_not_letter (c : ascii) : is_digit c = true -> is_upper c || is_lower c = false.
Proof. each_char c. Qed.

Lemma run_paren_word (w y : text) :
  Forall (fun c => is_word c = true) w -> run PParen (w ++ ","%char :: y) = None.
Proof.
  intros [|c w' Hc _]; [reflexivity|].
  cbn [app run step]. rewrite (word_not_space c Hc).
  now destruct (word_not_paren c Hc) as (-> & _).
Qed.

Lemma run_keyword_word (w : text) :
  forall rest y,
    Forall (fun c => is_word c = true) w ->
    Forall (fun c => is_upper c = true /\ ci_eq c "S" = false) rest ->
    run (PKeyword rest) (w ++ ","%char :: y) = None.
Proof.
  induction w as [|c w IH]; intros rest y Hw Hrest.
  - destruct rest as [|k rest]; [reflexivity|]. cbn [app run step].
    inversion Hrest as [|? ? [Hk _] _]; subst.
    now rewrite (ci_eq_not_letter k "," Hk).
  - destruct rest as [|k rest]; [reflexivity|]. cbn [app run step].
    inversion Hw; subst. inversion Hrest; subst.
    destruct (ci_eq k c); [|reflexivity].
    destruct rest as [|k' rest'].
    + cbn [after_keyword]. now rewrite run_paren_word.
    + cbn [after_keyword]. now rewrite IH.
Qed.

Lemma run_captures_word (s : text) :
  forall ph n w, run ph s = Some (n, w) -> Forall (fun c => is_word c = true) w.
Proof.
  induction s as [|c s IH]; intros ph n w; cbn [run]; [discriminate|].
  destruct (step ph c) as [ph' cap| |] eqn:St;
    [|intros H; injection H as _ <-; constructor|discriminate].
  destruct (run ph' s) as [[n' w']|] eqn:R; [|discriminate].
  intros H. injection H as _ <-. apply IH in R.
  destruct cap; [|assumption]. constructor; [|assumption].
  destruct ph as [[|k rest]| | | |]; simpl in St;
    repeat match type of St with
           | context [if ?b then _ else _] => destruct b eqn:?
           end;
    try discriminate; try assumption; congruence.
Qed.

Lemma keyword_ok_facts (keyword : text) :
  keyword_ok keyword = true ->
  exists k rest,
    keyword = k :: rest /\
    Forall (fun c => is_upper c = true /\ ci_eq c "S" = false) keyword /\
    Forall (fun c => ci_eq k c = false) "SUBSTRING(".
Proof.
  destruct keyword as [|k rest]; [discriminate|]. unfold keyword_ok.
  intros H. apply andb_true_iff in H as [H1 H2].
  exists k, rest. split; [reflexivity|].
  rewrite forallb_forall in H1, H2. split.
  - apply Forall_forall. intros c Hc. apply H1 in Hc.
    apply andb_true_iff in Hc as [U N]. split; [assumption|].
    now apply negb_true_iff in N.
  - assert (Hk : is_upper k = true).
    { specialize (H1 k (or_introl eq_refl)). now apply andb_true_iff in H1 as [U _]. }
    change ("SUBSTRING(" : text) with (("SUBSTRING" : text) ++ ["("%char]).
    apply Forall_app. split.
    + apply Forall_forall. intros c Hc. apply H2 in Hc. now apply negb_true_iff in Hc.
    + constructor; [|constructor]. now apply ci_eq_not_letter.
Qed.

Lemma call_tail (a b : ascii) (y : text) :
  (", " ++ [a] ++ ", " ++ [b] ++ ")") ++ y
  = ","%char :: " "%char :: a :: ","%char :: " "%char :: b :: ")"%char :: y.
Proof. reflexivity. Qed.

(** No match starts inside the text of a replacement. *)
Lemma scanner_inside_call (keyword : text) (a b : ascii) (w r1 r2 y : text) :
  keyword_ok keyword = true ->
  is_digit a = true -> is_digit b = true ->
  Forall (fun c => is_word c = true) w ->
  substring_call a b w = r1 ++ r2 -> r2 <> [] ->
  scanner keyword (r2 ++ y) = None.
Proof.
  intros Hkw Ha Hb Hw E Hr2.
  destruct (keyword_ok_facts keyword Hkw) as (k & rest & -> & Hall & Hhead).
  assert (Hk : is_upper k = true) by (inversion Hall as [|? ? [U _] _]; assumption).
  assert (Hstart : forall c t, ci_eq k c = false ->
                     scanner (k :: rest) (c :: t) = None).
  { intros c t Hc. unfold scanner. cbn [after_keyword run step]. now rewrite Hc. }
  assert (Hnil : scanner (k :: rest) [] = None) by reflexivity.
  unfold substring_call in E.
  apply app_eq_app in E as [l [[E1 E2]|[E1 E2]]].
  - (* the split falls inside [SUBSTRING(] *)
    subst r2. destruct l as [|c l].
    + rewrite app_nil_l, <- app_assoc, call_tail. unfold scanner. cbn [after_keyword].
      rewrite (run_keyword_word w (k :: rest)); [reflexivity|assumption|assumption].
    + assert (Hc : ci_eq k c = false).
      { rewrite E1 in Hhead. apply Forall_app in Hhead as [_ Hl]. now inversion Hl. }
      simpl app. now apply Hstart.
  - (* the split falls after [SUBSTRING(] *)
    symmetry in E2. apply app_eq_app in E2 as [l2 [[E3 E4]|[E3 E4]]].
    + (* ... inside the tail [, a, b)] *)
      destruct r2 as [|c r2]; [contradiction|]. simpl app. apply Hstart.
      assert (Hin : In c (", " ++ [a] ++ ", " ++ [b] ++ ")")).
      { rewrite E4. apply in_or_app. right. now left. }
      simpl in Hin.
      destruct Hin as [<-|[<-|[<-|[<-|[<-|[<-|[<-|[]]]]]]]];
        apply ci_eq_not_letter; try assumption; try reflexivity;
        now apply digit_not_letter.
    + (* ... inside the word *)
      subst r2. rewrite <- app_assoc, call_tail. unfold scanner. cbn [after_keyword].
      rewrite (run_keyword_word l2 (k :: rest)); [reflexivity| |assumption].
      rewrite E3 in Hw. now apply Forall_app in Hw as [_ Hw].
Qed.

(** ** A substitution leaves no match behind *)

Lemma scanner_nil (keyword : text) : scanner keyword [] = None.
Proof. reflexivity. Qed.

Lemma scanner_some (keyword s : text) (n : nat) (g : groups) :
  scanner keyword s = Some (n, g) ->
  exists w, g = [(1, w)] /\ run (after_keyword keyword) s = Some (n, w).
Proof.
  unfold scanner. destruct (run (after_keyword keyword) s) as [[n' w]|]; [|discriminate].
  intros H. injection H as <- <-. now exists w.
Qed.

Lemma scanner_none (keyword s : text) :
  scanner keyword s = None <-> run (after_keyword keyword) s = None.
Proof.
  unfold scanner. now destruct (run (after_keyword keyword) s) as [[n' w]|].
Qed.

Lemma sub_from_skip (m : matcher) (t : template) :
  m [] = None ->
  forall s k, sub_from m t k s = sub_from m t 0 (skipn k s).
Proof.
  intros Hm. induction s as [|c s IH]; intros k.
  - destruct k; simpl; now rewrite Hm.
  - destruct k; [reflexivity|]. simpl. apply IH.
Qed.

Lemma snoc_suffix {A : Type} (x x1 x2 : list A) (c : A) :
  x ++ [c] = x1 ++ x2 -> x2 <> [] -> exists x2', x2 = x2' ++ [c] /\ x = x1 ++ x2'.
Proof.
  intros E Hx2. destruct x2 as [|d x2] using rev_ind; [contradiction|].
  rewrite app_assoc in E. apply app_inj_tail in E as [-> ->]. now exists x2.
Qed.

Section Substitution.

Variables (keyword keyword' : text) (a b : ascii) (tpl : template).
Hypothesis keyword_fits : keyword_ok keyword = true.
Hypothesis keyword'_fits : keyword_ok keyword' = true.
Hypothesis a_digit : is_digit a = true.
Hypothesis b_digit : is_digit b = true.
Hypothesis tpl_call : forall w, expand tpl [(1, w)] = substring_call a b w.

Lemma start_ok : phase_ok (after_keyword keyword').
Proof.
  destruct (keyword_ok_facts keyword' keyword'_fits) as (k & rest & -> & Hall & _).
  now apply after_keyword_ok.
Qed.

Lemma sub_keeps_unmatched :
  forall n s x,
    length s <= n ->
    (forall x1 x2, x = x1 ++ x2 -> x2 <> [] -> scanner keyword' (x2 ++ s) = None) ->
    (forall s1 s2, s = s1 ++ s2 -> scanner keyword s2 = None -> scanner keyword' s2 = None) ->
    unmatched (scanner keyword') (x ++ sub_from (scanner keyword) tpl 0 s).
Proof.
  induction n as [|n IH]; intros s x Hlen H1 H2.
  - destruct s; [|simpl in Hlen; lia]. simpl. intros u v E.
    destruct v as [|c v]; [reflexivity|].
    rewrite <- (app_nil_r (c :: v)). apply (H1 u); [|discriminate].
    now rewrite app_nil_r in E.
  - destruct s as [|c s].
    { simpl. intros u v E. destruct v as [|d v]; [reflexivity|].
      rewrite <- (app_nil_r (d :: v)). apply (H1 u); [|discriminate].
      now rewrite app_nil_r in E. }
    simpl in Hlen. cbn [sub_from].
    destruct (scanner keyword (c :: s)) as [[m g]|] eqn:M.
    + (* a match at the head: its text is replaced *)
      apply scanner_some in M as (w & -> & R).
      pose proof (run_length _ _ _ _ R) as Hm.
      pose proof (run_captures_word _ _ _ _ R) as Hw.
      destruct m as [|m]; [lia|].
      rewrite tpl_call, (sub_from_skip _ _ (scanner_nil keyword)).
      set (rest := skipn m s).
      assert (Hrest : unmatched (scanner keyword') (sub_from (scanner keyword) tpl 0 rest)).
      { apply (IH rest []).
        - unfold rest. rewrite length_skipn. lia.
        - intros x1 x2 E Hx2. destruct x1, x2; try discriminate. contradiction.
        - intros s1 s2 E. apply (H2 (c :: firstn m s ++ s1)).
          rewrite <- app_comm_cons, <- app_assoc, <- E. unfold rest.
          now rewrite firstn_skipn. }
      intros u v E. apply app_eq_app in E as [l [[E1 E2]|[E1 E2]]].
      * (* [v] starts in [x] *)
        subst v. destruct (scanner keyword' (l ++ _)) as [[n' g']|] eqn:S'; [|reflexivity].
        exfalso. apply scanner_some in S' as (w' & _ & R').
        unfold substring_call in R'. rewrite <- app_assoc in R'.
        pose proof (run_before_call _ _ _ _ _ start_ok R') as Hn'.
        pose proof (run_local _ _ _ (c :: s) _ _ R' Hn') as R''.
        assert (Hl : l <> []).
        { intros ->. apply run_length in R'. simpl in Hn'. lia. }
        specialize (H1 u l E1 Hl). apply scanner_none in H1. congruence.
      * (* [v] starts in the replacement or after it *)
        apply app_eq_app in E2 as [l' [[E3 E4]|[E3 E4]]].
        -- subst v. destruct l' as [|d l'].
           ++ apply (Hrest [] _ eq_refl).
           ++ apply (scanner_inside_call keyword' a b w l (d :: l'));
                try assumption. discriminate.
        -- apply (Hrest l' v E4).
    + (* no match at the head: the character is kept *)
      intros u v E.
      apply (IH s (x ++ [c])) with (a := u) (b := v).
      * lia.
      * intros x1 x2 Ex Hx2. apply snoc_suffix in Ex as (x2' & -> & ->); [|assumption].
        rewrite <- app_assoc. simpl app.
        destruct x2' as [|d x2'].
        -- apply (H2 [] (c :: s) eq_refl M).
        -- apply (H1 x1 (d :: x2') eq_refl). discriminate.
      * intros s1 s2 Es. apply (H2 (c :: s1)). now rewrite Es.
      * now rewrite <- app_assoc.
Qed.

End Substitution.

(** ** Matches, searches and substitutions on a text without match *)

Lemma unmatched_tail (m : matcher) (c : ascii) (s : text) :
  unmatched m (c :: s) -> m (c :: s) = None /\ unmatched m s.
Proof.
  intros H. split; [apply (H [] _ eq_refl)|].
  intros a b E. apply (H (c :: a)). now rewrite E.
Qed.

Lemma unmatched_cons (m : matcher) (c : ascii) (s : text) :
  m (c :: s) = None -> unmatched m s -> unmatched m (c :: s).
Proof.
  intros H0 H a b E. destruct a as [|d a].
  - simpl in E. now subst b.
  - injection E as _ E. now apply (H a).
Qed.

Lemma finditer_unmatched (m : matcher) (s : text) (pos : nat) :
  finditer_from m pos 0 s = [] <-> unmatched m s.
Proof.
  revert pos. induction s as [|c s IH]; intros pos; simpl.
  - split.
    + intros H a b E. destruct a, b; try discriminate.
      now destruct (m []) as [[n g]|].
    + intros H. now rewrite (H [] [] eq_refl).
  - split.
    + destruct (m (c :: s)) as [[n g]|] eqn:M; [discriminate|].
      intros H. apply unmatched_cons; [assumption|]. now apply (IH (S pos)).
    + intros H. apply unmatched_tail in H as [-> H]. now apply IH.
Qed.

Lemma search_unmatched (m : matcher) (s : text) (pos : nat) :
  search_from m pos s = None <-> unmatched m s.
Proof.
  revert pos. induction s as [|c s IH]; intros pos; simpl.
  - split.
    + intros H a b E. destruct a, b; try discriminate.
      now destruct (m []) as [[n g]|].
    + intros H. now rewrite (H [] [] eq_refl).
  - split.
    + destruct (m (c :: s)) as [[n g]|] eqn:M; [discriminate|].
      intros H. apply unmatched_cons; [assumption|]. now apply (IH (S pos)).
    + intros H. apply unmatched_tail in H as [-> H]. now apply IH.
Qed.

Lemma sub_unmatched (m : matcher) (t : template) (s : text) :
  unmatched m s -> sub_from m t 0 s = s.
Proof.
  induction s as [|c s IH]; intros H; simpl.
  - now rewrite (H [] [] eq_refl).
  - apply unmatched_tail in H as [-> H]. now rewrite IH.
Qed.

Lemma unmatched_ext (m1 m2 : matcher) (s : text) :
  (forall t, m1 t = m2 t) -> unmatched m1 s -> unmatched m2 s.
Proof. intros E H a b Es. rewrite <- E. now apply (H a). Qed.

Lemma sub_from_ext (m1 m2 : matcher) (t : template) :
  (forall u, m1 u = m2 u) ->
  forall s k, sub_from m1 t k s = sub_from m2 t k s.
Proof.
  intros E. induction s as [|c s IH]; intros k; simpl.
  - now rewrite E.
  - destruct k; [|apply IH]. rewrite E.
    destruct (m2 (c :: s)) as [[[|n] g]|]; now rewrite IH.
Qed.

(** A text inside a text without match has no match either. *)
Lemma unmatched_inside (keyword a t b : text) :
  unmatched (scanner keyword) (a ++ t ++ b) -> unmatched (scanner keyword) t.
Proof.
  intros H u v E.
  destruct (scanner keyword v) as [[n g]|] eqn:M; [|reflexivity]. exfalso.
  apply scanner_some in M as (w & _ & R).
  pose proof (run_length _ _ _ _ R) as Hn.
  rewrite <- (app_nil_r v) in R.
  apply (run_local v _ [] b) in R; [|lia].
  specialize (H (a ++ u) (v ++ b)).
  rewrite E, <- !app_assoc in H. specialize (H eq_refl).
  apply scanner_none in H. congruence.
Qed.

(** ** What a match captures lies in the text *)

Lemma inside_nil (s : text) : inside [] s.
Proof. now exists [], s. Qed.

Lemma inside_suffix (t pre s : text) : inside t s -> inside t (pre ++ s).
Proof. intros (a & b & ->). exists (pre ++ a), b. now rewrite <- app_assoc. Qed.

Lemma inside_trans (t u s : text) : inside t u -> inside u s -> inside t s.
Proof.
  intros (a & b & ->) (a' & b' & ->). exists (a' ++ a), (b ++ b').
  now rewrite <- !app_assoc.
Qed.

Lemma inside_firstn (n : nat) (s : text) : inside (firstn n s) s.
Proof. exists [], (skipn n s). simpl. now rewrite firstn_skipn. Qed.

Lemma inside_skipn (n : nat) (s : text) : inside (skipn n s) s.
Proof. exists (firstn n s), []. now rewrite app_nil_r, firstn_skipn. Qed.

Lemma lstrip_inside (s : text) : inside (lstrip s) s.
Proof.
  induction s as [|c s IH]; simpl; [apply inside_nil|].
  destruct (is_space c).
  - now apply (inside_suffix _ [c]).
  - exists [], []. now rewrite app_nil_r.
Qed.

Lemma inside_rev (t s : text) : inside t s -> inside (rev t) (rev s).
Proof.
  intros (a & b & ->). exists (rev b), (rev a).
  now rewrite !rev_app_distr, <- app_assoc.
Qed.

Lemma strip_inside (s : text) : inside (strip s) s.
Proof.
  unfold strip, rstrip. apply inside_trans with (lstrip s); [|apply lstrip_inside].
  rewrite <- (rev_involutive (lstrip s)) at 2. apply inside_rev, lstrip_inside.
Qed.

Lemma star_loop_sound (p : ascii -> bool) (greedy : bool) (k : nat -> text -> outcome) :
  forall s pos res,
    star_loop p greedy k pos s = Some res ->
    exists pos' pre s', s = pre ++ s' /\ k pos' s' = Some res.
Proof.
  induction s as [|c s IH]; intros pos res; simpl.
  - intros H. now exists pos, [], [].
  - assert (Hk : k pos (c :: s) = Some res ->
                 exists pos' pre s', c :: s = pre ++ s' /\ k pos' s' = Some res)
      by (intros H; now exists pos, [], (c :: s)).
    assert (Hs : star_loop p greedy k (S pos) s = Some res ->
                 exists pos' pre s', c :: s = pre ++ s' /\ k pos' s' = Some res).
    { intros H. apply IH in H as (pos' & pre & s' & -> & H).
      now exists pos', (c :: pre), s'. }
    destruct (p c); [|exact Hk].
    destruct greedy.
    + destruct (star_loop p true k (S pos) s) eqn:L; simpl; [apply Hs|apply Hk].
    + destruct (k pos (c :: s)) eqn:K; simpl; [apply Hk|apply Hs].
Qed.

Lemma captures_cons (g : groups) (full t : text) (n : nat) :
  captures_inside g full -> inside t full -> captures_inside ((n, t) :: g) full.
Proof.
  intros C T i u [E|Hin]; [injection E as _ <-; exact T|now apply (C i)].
Qed.

Lemma rmatch_sound (fl : flags) (full : text) (r : regex) :
  forall pos s g k res,
    (exists a, full = a ++ s) ->
    captures_inside g full ->
    rmatch fl r pos s g k = Some res ->
    exists pos' pre s' g',
      s = pre ++ s' /\ k pos' s' g' = Some res /\ captures_inside g' full.
Proof.
  induction r as [| |cs|a IHa b IHb|a IHa b IHb|greedy cs|n a IHa|];
    intros pos s g k res Hs C; cbn [rmatch].
  - intros H. exists pos, [], s, g. auto.
  - discriminate.
  - destruct s as [|c s]; [discriminate|].
    destruct (cset_mem fl cs c); [|discriminate].
    intros H. exists (S pos), [c], s, g. auto.
  - intros H. apply IHa in H as (p1 & pre1 & s1 & g1 & -> & H & C1); [|assumption..].
    apply IHb in H as (p2 & pre2 & s2 & g2 & -> & H & C2); [| |assumption].
    + exists p2, (pre1 ++ pre2), s2, g2. rewrite <- app_assoc. auto.
    + destruct Hs as [a0 ->]. exists (a0 ++ pre1). now rewrite <- app_assoc.
  - destruct (rmatch fl a pos s g k) eqn:A; simpl.
    + intros H. rewrite <- H. now apply IHa in A.
    + intros H. now apply IHb in H.
  - intros H. apply star_loop_sound in H as (pos' & pre & s' & -> & H).
    exists pos', pre, s', g. auto.
  - intros H. apply IHa in H as (p1 & pre1 & s1 & g1 & -> & H & C1); [|assumption..].
    exists p1, pre1, s1, ((n, firstn (p1 - pos) (pre1 ++ s1)) :: g1).
    repeat split; [assumption|]. apply captures_cons; [assumption|].
    apply inside_trans with (pre1 ++ s1); [apply inside_firstn|].
    destruct Hs as [a0 ->]. exists a0, []. now rewrite app_nil_r.
  - destruct s as [|c [|d s]]; try discriminate.
    + intros H. exists pos, [], [], g. auto.
    + destruct (eqc c newline); [|discriminate].
      intros H. exists pos, [], [c], g. auto.
Qed.

(** The groups of a search lie in the text searched. *)
Lemma search_captures (fl : flags) (r : regex) (s : text) (m : rematch) :
  re_search fl r s = Some m -> forall n, inside (group n m) s.
Proof.
  unfold re_search.
  assert (G : forall t pos,
             search_from (match_at fl r) pos t = Some m ->
             captures_inside (m_groups m) t).
  { induction t as [|c t IH]; intros pos; simpl.
    - destruct (match_at fl r []) as [[n g]|] eqn:M; [|discriminate].
      intros H. injection H as <-. simpl.
      unfold match_at in M.
      apply (rmatch_sound fl []) in M as (p' & pre & s' & g' & _ & H & C).
      + now injection H as _ <-.
      + now exists [].
      + intros i u [].
    - destruct (match_at fl r (c :: t)) as [[n g]|] eqn:M.
      + intros H. injection H as <-. simpl.
        unfold match_at in M.
        apply (rmatch_sound fl (c :: t)) in M as (p' & pre & s' & g' & _ & H & C).
        * now injection H as _ <-.
        * now exists [].
        * intros i u [].
      + intros H. apply IH in H. intros i u Hin.
        apply (inside_suffix u [c]). now apply (H i). }
  intros H n. apply G in H. clear G. unfold group.
  revert H. generalize (m_groups m). intros gs H.
  induction gs as [|[i t] g IH]; simpl; [apply inside_nil|].
  destruct (i =? n).
  - apply (H i t). now left.
  - apply IH. intros j u Hin. apply (H j u). now right.
Qed.

(** ** Rules of the form keyword, parenthesis, word *)

Lemma table_keyword_rules : keyword_rules UNSUPPORTED_PATTERNS.
Proof.
  unfold keyword_rules, UNSUPPORTED_PATTERNS.
  constructor.
  { right. exists ("YEAR" : text), "1"%char, "4"%char, ("SUBSTRING(\1, 1, 4)" : text).
    repeat split; vm_compute; reflexivity. }
  constructor.
  { right. exists ("MONTH" : text), "6"%char, "2"%char, ("SUBSTRING(\1, 6, 2)" : text).
    repeat split; vm_compute; reflexivity. }
  constructor.
  { right. exists ("DAY" : text), "9"%char, "2"%char, ("SUBSTRING(\1, 9, 2)" : text).
    repeat split; vm_compute; reflexivity. }
  repeat (constructor; [left; reflexivity|]). constructor.
Qed.

Lemma findall_none (keyword pattern q : text) :
  re_compile pattern = keyword_re keyword ->
  (0 <? length (re_findall FLAG_I (re_compile pattern) q)) = false <->
  unmatched (scanner keyword) q.
Proof.
  intros ->. unfold re_findall. rewrite length_map. split.
  - intros H. apply Nat.ltb_ge in H.
    apply (unmatched_ext (match_at FLAG_I (keyword_re keyword))).
    + intros t. apply match_at_keyword.
    + apply (finditer_unmatched _ q 0).
      destruct (finditer_from _ 0 0 q); [reflexivity|simpl in H; lia].
  - intros H.
    apply (unmatched_ext _ (match_at FLAG_I (keyword_re keyword))) in H.
    + apply (finditer_unmatched _ q 0) in H. now rewrite H.
    + intros t. symmetry. apply match_at_keyword.
Qed.

Lemma search_none (keyword pattern t : text) :
  re_compile pattern = keyword_re keyword ->
  unmatched (scanner keyword) t ->
  re_search FLAG_I (re_compile pattern) t = None.
Proof.
  intros -> H. unfold re_search. apply search_unmatched.
  apply (unmatched_ext (scanner keyword)); [|assumption].
  intros u. symmetry. apply match_at_keyword.
Qed.

Lemma re_sub_scanner (keyword pattern : text) (tpl : template) (q : text) :
  re_compile pattern = keyword_re keyword ->
  re_sub FLAG_I (re_compile pattern) tpl q = sub_from (scanner keyword) tpl 0 q.
Proof.
  intros ->. unfold re_sub. apply sub_from_ext. intros u. apply match_at_keyword.
Qed.

(** After the substitution of a rule, neither its keyword nor a keyword
    without match before has a match. *)
Lemma substitution_settles (keyword keyword' : text) (a b : ascii) (tpl : template)
    (q : text) :
  keyword_ok keyword = true -> keyword_ok keyword' = true ->
  is_digit a = true -> is_digit b = true ->
  (forall w, expand tpl [(1, w)] = substring_call a b w) ->
  keyword' = keyword \/ unmatched (scanner keyword') q ->
  unmatched (scanner keyword') (sub_from (scanner keyword) tpl 0 q).
Proof.
  intros K K' A B T H.
  apply (sub_keeps_unmatched keyword keyword' a b tpl K' A B T (length q) q []).
  - lia.
  - intros x1 x2 E Hx2. destruct x1, x2; try discriminate. contradiction.
  - intros s1 s2 E M. destruct H as [->|H]; [assumption|]. now apply (H s1).
Qed.

Lemma apply_rules_keeps (rules : list rule) :
  keyword_rules rules ->
  forall keyword q changes,
    keyword_ok keyword = true ->
    unmatched (scanner keyword) q ->
    unmatched (scanner keyword) (fst (apply_rules rules q changes)).
Proof.
  induction 1 as [|[pattern replacement] rest Hr _ IH]; intros keyword q changes K U;
    [assumption|].
  simpl. destruct Hr as [Hnone|(kw & a & b & repl & Hu & Hc & Hk & Ha & Hb & Ht)];
    simpl in *.
  - rewrite Hnone. now apply IH.
  - rewrite Hu. destruct (0 <? _); [|now apply IH].
    apply IH; [assumption|]. rewrite (re_sub_scanner kw) by assumption.
    apply (substitution_settles kw keyword a b); auto.
Qed.

Lemma apply_rules_settles (rules : list rule) :
  keyword_rules rules ->
  forall q changes, settled rules (fst (apply_rules rules q changes)).
Proof.
  induction 1 as [|[pattern replacement] rest Hr Hrest IH]; intros q changes r keyword Hin Hfit;
    [contradiction|].
  pose proof Hfit as (a' & b' & repl' & Hu' & Hc' & Hk' & _).
  simpl. destruct Hin as [<-|Hin].
  - simpl in *. rewrite Hu'.
    destruct Hfit as (a & b & repl & Hu & Hc & Hk & Ha & Hb & Ht). simpl in *.
    rewrite Hu' in Hu. injection Hu as <-.
    destruct (0 <? _) eqn:Cnt.
    + apply apply_rules_keeps; [assumption..|].
      rewrite (re_sub_scanner keyword) by assumption.
      apply (substitution_settles keyword keyword a b); auto.
    + apply apply_rules_keeps; [assumption..|].
      now apply (findall_none keyword pattern q Hc).
  - destruct (usable replacement) as [repl|]; [|now apply (IH q changes r)].
    destruct (0 <? _); now apply (IH _ _ r).
Qed.

Lemma apply_rules_settled (rules : list rule) (q : text) :
  keyword_rules rules ->
  settled rules q -> forall changes, apply_rules rules q changes = (q, changes).
Proof.
  induction 1 as [|[pattern replacement] rest Hr _ IH]; intros S' changes;
    [reflexivity|].
  assert (Srest : settled rest q).
  { intros r keyword Hin. apply S'. now right. }
  simpl. destruct Hr as [Hnone|(kw & Hfit)]; simpl in *.
  - rewrite Hnone. now apply IH.
  - pose proof Hfit as (a & b & repl & Hu & Hc & _). simpl in *. rewrite Hu.
    assert (U : unmatched (scanner kw) q) by (apply (S' _ kw (or_introl eq_refl) Hfit)).
    apply (findall_none kw pattern q Hc) in U. rewrite U. now apply IH.
Qed.

Lemma apply_rules_group_by_settled (rules : list rule) (section columns q : text) :
  keyword_rules rules ->
  settled rules columns ->
  forall changes, apply_rules_group_by rules section columns q changes = (q, changes).
Proof.
  induction 1 as [|[pattern replacement] rest Hr _ IH]; intros S' changes;
    [reflexivity|].
  assert (Srest : settled rest columns).
  { intros r keyword Hin. apply S'. now right. }
  simpl. destruct Hr as [Hnone|(kw & Hfit)]; simpl in *.
  - rewrite Hnone. now apply IH.
  - pose proof Hfit as (a & b & repl & Hu & Hc & _). simpl in *. rewrite Hu.
    assert (U : unmatched (scanner kw) columns)
      by (apply (S' _ kw (or_introl eq_refl) Hfit)).
    rewrite (search_none kw pattern columns Hc U). now apply IH.
Qed.

Lemma settled_inside (rules : list rule) (t q : text) :
  inside t q -> settled rules q -> settled rules t.
Proof.
  intros (a & b & ->) S' r keyword Hin Hfit.
  apply (unmatched_inside keyword a t b). now apply (S' r).
Qed.

(** On a settled query the rewriter changes nothing and describes
    nothing. *)
Lemma changes_settled (rules : list rule) (q : text) :
  keyword_rules rules -> settled rules q ->
  suggest_fixes_changes rules q None = (q, []).
Proof.
  intros K S'. unfold suggest_fixes_changes.
  rewrite (apply_rules_settled rules q K S').
  destruct (re_search FLAG_IS (re_compile GROUP_BY_PATTERN) q) as [m|] eqn:G;
    [|reflexivity].
  rewrite (apply_rules_group_by_settled rules); [reflexivity|assumption|].
  apply (settled_inside rules _ q); [|assumption].
  apply inside_trans with (group 1 m); [apply strip_inside|].
  now apply (search_captures FLAG_IS (re_compile GROUP_BY_PATTERN)).
Qed.

(** The query that the rewriter returns is settled. *)
Lemma changes_settle (rules : list rule) (q : text) :
  keyword_rules rules ->
  settled rules (fst (suggest_fixes_changes rules q None)).
Proof.
  intros K. unfold suggest_fixes_changes.
  pose proof (apply_rules_settles rules K q []) as S1.
  destruct (apply_rules rules q []) as [q1 c1]. simpl in S1.
  destruct (re_search FLAG_IS (re_compile GROUP_BY_PATTERN) q1) as [m|] eqn:G;
    [|exact S1].
  rewrite (apply_rules_group_by_settled rules); [exact S1|assumption|].
  apply (settled_inside rules _ q1); [|assumption].
  apply inside_trans with (group 1 m); [apply strip_inside|].
  now apply (search_captures FLAG_IS (re_compile GROUP_BY_PATTERN)).
Qed.

Lemma rewrite_settles (q : text) : settled UNSUPPORTED_PATTERNS (fst (rewrite q)).
Proof.
  unfold rewrite.
  pose proof (changes_settle UNSUPPORTED_PATTERNS q table_keyword_rules) as S1.
  pose proof (suggest_fixes_changes_none UNSUPPORTED_PATTERNS q) as N.
  destruct (suggest_fixes_changes UNSUPPORTED_PATTERNS q None) as [fq [|c ch]];
    [|exact S1].
  cbn [fst snd] in *. now rewrite <- N.
Qed.

Lemma rewrite_settled (q : text) :
  settled UNSUPPORTED_PATTERNS q -> rewrite q = (q, []).
Proof.
  intros S'. unfold rewrite.
  now rewrite (changes_settled UNSUPPORTED_PATTERNS q table_keyword_rules S').
Qed.

Lemma suggest_fixes_settled (q : text) :
  settled UNSUPPORTED_PATTERNS q -> suggest_fixes q None None = (q, NO_FIX).
Proof.
  intros S'. unfold suggest_fixes, suggest_fixes_with.
  now rewrite (changes_settled UNSUPPORTED_PATTERNS q table_keyword_rules S').
Qed.

(** C5. Rewriting is idempotent on its own output: for every query [q],
    rewriting the query of [rewrite q] returns that query unchanged with
    an empty list of change descriptions; in the terms of the code,
    [suggest_fixes] called on the query it returned gives that query back
    with the message that no automatic fix could be applied. *)
Theorem rewrite_idempotent (q : text) :
  rewrite (fst (rewrite q)) = (fst (rewrite q), [])
  /\ suggest_fixes (fst (suggest_fixes q None None)) None None
     = (fst (suggest_fixes q None None), NO_FIX).
Proof.
  split.
  - apply rewrite_settled, rewrite_settles.
  - rewrite suggest_fixes_query. apply suggest_fixes_settled, rewrite_settles.
Qed.

(** ** Rule-based repair, call after call *)

(** A query that the rules have just rewritten goes to the fallback. *)
Lemma base_fix_after_rewrite (query : text) (fb : feedback) :
  fst (base_fix_strategy (fst (rewrite query)) fb) = Fallback.
Proof.
  rewrite base_fix_fallback; [reflexivity|].
  now rewrite (rewrite_settled _ (rewrite_settles query)).
Qed.

(** C4, as amended.  The repair method of the base class keeps no record
    of earlier calls: at every call it tries the rule-based rewrite
    first.  When the rewrite changes the query the call returns the
    rewritten query and the fallback is not run; otherwise the fallback
    runs, and what the call returns is what the fallback returns; the two
    are exclusive within one call.  A query that the rules have just
    rewritten is not rewritten again by the next call, which falls back.
    Nothing limits the rule-based rewrite to one pass of a session: it
    produces the candidate of every call whose query matches a rule. *)
Theorem rule_rewrite_tried_at_every_call :
  (forall invalid_query fb,
      fst (rewrite invalid_query) <> invalid_query ->
      fst (base_fix_strategy invalid_query fb) = RuleBased /\
      fixed_query_key (snd (base_fix_strategy invalid_query fb))
      = Some (fst (rewrite invalid_query)))
  /\ (forall invalid_query fb,
         fst (rewrite invalid_query) = invalid_query ->
         base_fix_strategy invalid_query fb
         = (Fallback, fallback_fix invalid_query (error fb)))
  /\ (forall query fb,
         fst (base_fix_strategy (fst (rewrite query)) fb) = Fallback).
Proof.
  split; [exact base_fix_rule_based|]. split; [exact base_fix_fallback|].
  exact base_fix_after_rewrite.
Qed.

Lemma rule_rewrite_tried_at_every_call_witness :
  (fst (base_fix_strategy "SELECT YEAR(createTime)"
          (feedback_of (first_validation (deployed rejecting_service)
                          "SELECT YEAR(createTime)"))) = RuleBased
   /\ fixed_query_key
        (snd (base_fix_strategy "SELECT YEAR(createTime)"
                (feedback_of (first_validation (deployed rejecting_service)
                                "SELECT YEAR(createTime)"))))
      = Some (fst (rewrite "SELECT YEAR(createTime)")))
  /\ base_fix_strategy "SELECT size"
       (feedback_of (first_validation (deployed rejecting_service) "SELECT size"))
     = (Fallback, fallback_fix "SELECT size" (Some ("Syntax error" : text))).
Proof.
  destruct rule_rewrite_tried_at_every_call as (T1 & T2 & _).
  split.
  - apply T1. vm_compute. discriminate.
  - apply (T2 "SELECT size"
              (feedback_of (first_validation (deployed rejecting_service) "SELECT size"))).
    vm_compute. reflexivity.
Defined.

(** C4, counterexample.  A session of the [generate_aql] route, which
    hands every call the query validated last.  The rules produce the
    candidate of the first pass; the second pass falls back and renames
    the column that the service does not know; the query that results
    matches a rule, and the rules produce the candidate of the third
    pass. *)
Lemma rule_rewrite_repeated_in_session :
  let d := deployed missing_column_service in
  let q0 : text := "SELECT MONTH(createTime), YEAR(classif-date)" in
  let q1 : text := "SELECT SUBSTRING(createTime, 6, 2), YEAR(classif-date)" in
  let q2 : text := "SELECT SUBSTRING(createTime, 6, 2), YEAR(classification)" in
  let q3 : text :=
    "SELECT SUBSTRING(createTime, 6, 2), SUBSTRING(classification, 1, 4)" in
  let fb := {| original_query := q0; error := Some UNKNOWN_COLUMN;
               error_details := NO_REPORT; previous_attempts := [] |} in
  match generate_aql_session d (base_provider q0) "files per month" with
  | Ok st =>
      map attempt_query (attempts_made st) = [q1; q2; q3; q3]
      /\ map attempt_number (attempts_made st) = [1; 2; 3; 4]
      /\ (fst (base_fix_strategy q0 fb) = RuleBased
          /\ fixed_query_key (snd (base_fix_strategy q0 fb)) = Some q1)
      /\ (fst (base_fix_strategy q1 fb) = Fallback
          /\ fixed_query_key (snd (base_fix_strategy q1 fb)) = Some q2)
      /\ (fst (base_fix_strategy q2 fb) = RuleBased
          /\ fixed_query_key (snd (base_fix_strategy q2 fb)) = Some q3)
  | Raise _ => False
  end.
Proof. vm_compute. repeat split; reflexivity. Qed.

(** ** [str.replace] *)

Lemma startswith_length (p s : text) : startswith p s = true -> length p <= length s.
Proof. intros H. apply startswith_prefix in H as [t ->]. rewrite length_app. lia. Qed.

Lemma startswith_app_false (p s t : text) :
  startswith p (s ++ t) = false -> startswith p s = false.
Proof.
  intros H. destruct (startswith p s) eqn:E; [|reflexivity].
  apply startswith_app with (t := t) in E. congruence.
Qed.

Lemma contained_tail (old : text) (c : ascii) (x y : text) :
  contained old (c :: x) y -> contained old x y.
Proof. intros H x1 x2 E. apply (H (c :: x1)). now rewrite E. Qed.

Lemma replace_from_app (old new : text) (x y : text) :
  contained old x y ->
  forall k, k <= length x ->
    replace_from old new k (x ++ y)
    = replace_from old new k x ++ replace_from old new 0 y.
Proof.
  induction x as [|c x IH]; intros C k Hk.
  - simpl in Hk. now replace k with 0 by lia.
  - pose proof (IH (contained_tail old c x y C)) as IH'.
    destruct k as [|k].
    + cbn [app replace_from].
      destruct (startswith old (c :: x ++ y)) eqn:E.
      * assert (E' : startswith old (c :: x) = true)
          by (apply (C [] (c :: x) eq_refl); [discriminate|exact E]).
        rewrite E'. apply startswith_length in E'. simpl in E'.
        rewrite IH' by lia. now rewrite app_assoc.
      * rewrite (startswith_app_false old (c :: x) y E). now rewrite IH' by lia.
    + cbn [app replace_from]. apply IH'. simpl in Hk. lia.
Qed.

Lemma replace_app (old new x y : text) :
  old <> [] -> contained old x y ->
  replace old new (x ++ y) = replace old new x ++ replace old new y.
Proof.
  intros Hold C. unfold replace. destruct old as [|o old]; [contradiction|].
  apply replace_from_app; [assumption|lia].
Qed.

(** A text in which [old] occurs nowhere is left as it is. *)
Lemma replace_from_absent (old new s : text) :
  (forall s1 s2, s = s1 ++ s2 -> startswith old s2 = false) ->
  replace_from old new 0 s = s.
Proof.
  induction s as [|c s IH]; intros H; [reflexivity|]. cbn [replace_from].
  rewrite (H [] (c :: s) eq_refl). f_equal. apply IH.
  intros s1 s2 E. apply (H (c :: s1)). now rewrite E.
Qed.

Lemma contains_false (p s : text) :
  contains p s = false <-> forall s1 s2, s = s1 ++ s2 -> startswith p s2 = false.
Proof.
  induction s as [|c s IH]; simpl.
  - rewrite orb_false_r. split.
    + intros H s1 s2 E. destruct s1, s2; try discriminate. assumption.
    + intros H. apply (H [] [] eq_refl).
  - split.
    + intros H. apply orb_false_iff in H as [H1 H2]. intros s1 s2 E.
      destruct s1 as [|d s1].
      * simpl in E. now subst s2.
      * injection E as _ E. now apply (proj1 IH H2 s1).
    + intros H. apply orb_false_iff. split; [apply (H [] _ eq_refl)|].
      apply IH. intros s1 s2 E. apply (H (c :: s1)). now rewrite E.
Qed.

Lemma replace_absent (old new s : text) :
  old <> [] -> contains old s = false -> replace old new s = s.
Proof.
  intros Hold H. unfold replace. destruct old as [|o old]; [contradiction|].
  apply replace_from_absent. now apply contains_false.
Qed.

Lemma replace_self (old new : text) : old <> [] -> replace old new old = new.
Proof.
  intros Hold. unfold replace. destruct old as [|o old]; [contradiction|].
  cbn [replace_from]. rewrite startswith_refl.
  assert (H : forall k s, length s <= k -> replace_from (o :: old) new k s = []).
  { intros k s. revert k. induction s as [|c s IH]; intros k Hk; [reflexivity|].
    destruct k; simpl in Hk; [lia|]. cbn [replace_from]. apply IH. lia. }
  rewrite H; [apply app_nil_r|]. simpl. lia.
Qed.

(** ** Templates *)

Lemma brace_free_cons (c : ascii) (t : text) :
  brace_free (c :: t) = true -> is_brace c = false /\ brace_free t = true.
Proof.
  unfold brace_free. simpl. intros H. apply andb_true_iff in H as [H1 H2].
  split; [now apply negb_true_iff in H1|assumption].
Qed.

Lemma not_brace (c : ascii) :
  is_brace c = false -> eqc "{" c = false /\ eqc "}" c = false.
Proof.
  unfold is_brace. intros H. apply orb_false_iff in H as [H1 H2].
  split; now apply eqc_sym_false.
Qed.

Lemma token_text_eq (name : text) :
  token_text name = "{"%char :: "{"%char :: name ++ ["}"%char; "}"%char].
Proof. reflexivity. Qed.

(** The text from the third character of a variable on holds no opening
    brace. *)
Lemma no_open_after (name x1 x2 y : text) (p : text) :
  brace_free name = true ->
  name ++ ["}"%char; "}"%char] = x1 ++ x2 -> x2 <> [] ->
  startswith ("{"%char :: p) (x2 ++ y) = false.
Proof.
  revert x1. induction name as [|c name IH]; intros x1 Hn E Hx2.
  - destruct x1 as [|a [|b x1]]; simpl in E.
    + now subst x2.
    + injection E as _ <-. reflexivity.
    + injection E as _ _ E. destruct x1, x2; try discriminate. contradiction.
  - apply brace_free_cons in Hn as [Hc Hn]. destruct x1 as [|a x1]; simpl in E.
    + subst x2. simpl. now rewrite (proj1 (not_brace c Hc)).
    + injection E as _ E. now apply (IH x1).
Qed.

Lemma same_name (name name' rest : text) :
  brace_free name = true -> brace_free name' = true ->
  startswith (name ++ ["}"%char; "}"%char]) (name' ++ "}"%char :: rest) = true ->
  name = name'.
Proof.
  revert name'. induction name as [|c name IH]; intros [|c' name'] Hn Hn' H.
  - reflexivity.
  - apply brace_free_cons in Hn' as [Hc' _]. simpl in H.
    now rewrite (proj2 (not_brace c' Hc')) in H.
  - apply brace_free_cons in Hn as [Hc _]. simpl in H.
    destruct (not_brace c Hc) as [_ Hc2]. apply eqc_sym_false in Hc2.
    unfold eqc in *. now rewrite Hc2 in H.
  - apply brace_free_cons in Hn as [_ Hn]. apply brace_free_cons in Hn' as [_ Hn'].
    simpl in H. apply andb_true_iff in H as [H1 H2]. apply eqc_eq in H1. subst c'.
    f_equal. now apply IH.
Qed.

(** Where a variable can occur in the text of an item. *)
Lemma occurrence_in_item (name : text) (it : item) (x1 x2 y : text) :
  brace_free name = true -> item_ok it = true ->
  render_item it = x1 ++ x2 -> x2 <> [] ->
  startswith (token_text name) (x2 ++ y) = true ->
  x1 = [] /\ it = Token name.
Proof.
  intros Hn Hit E Hx2 H. destruct it as [t|name']; simpl in Hit, E.
  - (* plain text holds no brace *)
    exfalso. revert x1 E. induction t as [|c t IH]; intros x1 E.
    + destruct x1, x2; try discriminate. contradiction.
    + apply brace_free_cons in Hit as [Hc Ht]. destruct x1 as [|a x1]; simpl in E.
      * subst x2. rewrite token_text_eq in H. simpl in H.
        now rewrite (proj1 (not_brace c Hc)) in H.
      * injection E as _ E. now apply (IH Ht x1).
  - rewrite token_text_eq in E. destruct x1 as [|a [|b x1]]; simpl in E.
    + subst x2. split; [reflexivity|]. f_equal.
      rewrite token_text_eq in H. simpl in H. rewrite <- app_assoc in H.
      symmetry. now apply (same_name name name' ("}"%char :: y)).
    + exfalso. injection E as _ <-. rewrite token_text_eq in H.
      cbn [app startswith] in H. rewrite eqc_refl in H. simpl in H.
      destruct name' as [|c' name'].
      * simpl in H. discriminate.
      * apply brace_free_cons in Hit as [Hc' _]. simpl in H.
        now rewrite (proj1 (not_brace c' Hc')) in H.
    + exfalso. injection E as _ _ E. rewrite token_text_eq in H.
      rewrite (no_open_after name' x1 x2 y _ Hit E Hx2) in H. discriminate.
Qed.

Lemma item_contained (name : text) (it : item) (y : text) :
  brace_free name = true -> item_ok it = true ->
  contained (token_text name) (render_item it) y.
Proof.
  intros Hn Hit x1 x2 E Hx2 H.
  destruct (occurrence_in_item name it x1 x2 y Hn Hit E Hx2 H) as [-> ->].
  simpl in E. subst x2. apply startswith_refl.
Qed.

Lemma token_text_not_nil (name : text) : token_text name <> [].
Proof. discriminate. Qed.

Lemma replace_item (name new : text) (it : item) :
  brace_free name = true -> item_ok it = true ->
  replace (token_text name) new (render_item it) = render_item (swap name new it).
Proof.
  intros Hn Hit.
  destruct it as [t|name']; simpl swap.
  - apply replace_absent; [apply token_text_not_nil|].
    apply contains_false. intros s1 s2 E.
    destruct (startswith (token_text name) s2) eqn:H; [|reflexivity]. exfalso.
    destruct s2 as [|c s2]; [discriminate|].
    rewrite <- (app_nil_r (c :: s2)) in H.
    now destruct (occurrence_in_item name (Plain t) s1 (c :: s2) [] Hn Hit E
                    ltac:(discriminate) H) as [_ ?].
  - destruct (text_eqb name name') eqn:Q.
    + apply text_eqb_eq in Q. subst name'. cbn [render_item].
      apply replace_self, token_text_not_nil.
    + apply text_eqb_neq in Q.
      apply replace_absent; [apply token_text_not_nil|].
      apply contains_false. intros s1 s2 E.
      destruct (startswith (token_text name) s2) eqn:H; [|reflexivity]. exfalso.
      destruct s2 as [|c s2]; [discriminate|].
      rewrite <- (app_nil_r (c :: s2)) in H.
      destruct (occurrence_in_item name (Token name') s1 (c :: s2) [] Hn Hit E
                  ltac:(discriminate) H) as [_ I].
      injection I as I. congruence.
Qed.

Lemma replace_render (name new : text) (items : list item) :
  brace_free name = true -> template_ok items ->
  replace (token_text name) new (render items) = render (map (swap name new) items).
Proof.
  intros Hn. induction 1 as [|it items Hit _ IH]; [reflexivity|].
  cbn [render flat_map map]. fold (render items). fold (render (map (swap name new) items)).
  rewrite replace_app.
  - now rewrite IH, replace_item.
  - apply token_text_not_nil.
  - now apply item_contained.
Qed.

(** ** [preprocess_query] on a template *)

Lemma replace_aql_none (table : list (text * text)) (query : text) :
  no_expression_for table query -> replace_aql_expressions table query = query.
Proof.
  induction 1 as [|[var_name aql_expr] rest H _ IH]; [reflexivity|].
  simpl in *. now rewrite H.
Qed.

Lemma brace_free_app (a b : text) :
  brace_free (a ++ b) = brace_free a && brace_free b.
Proof. apply forallb_app. Qed.

Lemma digit_char_no_brace (k : nat) : k < 10 -> is_brace (digit_char k) = false.
Proof.
  intros H. do 10 (destruct k as [|k]; [reflexivity|]). lia.
Qed.

Lemma decimal_fuel_brace_free (fuel n : nat) (acc : text) :
  brace_free acc = true -> brace_free (decimal_fuel fuel n acc) = true.
Proof.
  revert n acc. induction fuel as [|f IH]; intros n acc H; [assumption|].
  cbn [decimal_fuel].
  assert (H' : brace_free (digit_char (n mod 10) :: acc) = true).
  { unfold brace_free in *. cbn [forallb]. rewrite H, digit_char_no_brace; [reflexivity|].
    apply Nat.mod_upper_bound. discriminate. }
  destruct (n / 10 =? 0); [assumption|]. now apply IH.
Qed.

Lemma decimal_brace_free (n : nat) : brace_free (decimal n) = true.
Proof. now apply decimal_fuel_brace_free. Qed.

Lemma zero_pad_brace_free (w : nat) (s : text) :
  brace_free s = true -> brace_free (zero_pad w s) = true.
Proof.
  intros H. unfold zero_pad. rewrite brace_free_app, H, andb_true_r.
  induction (w - length s) as [|k IH]; [reflexivity|]. simpl. exact IH.
Qed.

Lemma strftime_brace_free (d : date) : brace_free (strftime_ymd d) = true.
Proof.
  unfold strftime_ymd.
  rewrite !brace_free_app, decimal_brace_free.
  rewrite !zero_pad_brace_free by apply decimal_brace_free. reflexivity.
Qed.

Lemma date_variables_are_variables : Forall is_variable (map fst DATE_VARIABLES).
Proof. repeat constructor. Qed.

Lemma token_text_inj (n n' : text) : token_text n = token_text n' -> n = n'.
Proof.
  rewrite !token_text_eq. intros H. injection H as H. now apply app_inv_tail in H.
Qed.

Lemma swap_ok (name new : text) (items : list item) :
  brace_free new = true -> template_ok items -> template_ok (map (swap name new) items).
Proof.
  intros Hnew. induction 1 as [|it items Hit _ IH]; [constructor|].
  constructor; [|assumption]. destruct it as [t|n]; simpl; [assumption|].
  now destruct (text_eqb name n).
Qed.

Lemma replace_remaining_cons (today : date) (v : text) (vs : list text) (q : text) :
  replace_remaining today (v :: vs) q
  = replace_remaining today vs
      (replace v (strftime_ymd (minus_days today (date_offset DATE_VARIABLES v))) q).
Proof. reflexivity. Qed.

Lemma replace_remaining_render (today : date) (vars : list text) :
  Forall is_variable vars ->
  forall items,
    template_ok items ->
    replace_remaining today vars (render items)
    = render (map (substitute_vars today vars) items).
Proof.
  induction 1 as [|v vs [Hv Hn] _ IH]; intros items Hok.
  - cbn [replace_remaining]. f_equal. rewrite <- (map_id items) at 1.
    apply map_ext. now intros [t|n].
  - rewrite replace_remaining_cons.
    rewrite Hv at 1. rewrite replace_render by assumption.
    rewrite IH by (apply swap_ok; [apply strftime_brace_free|assumption]).
    f_equal. rewrite map_map. apply map_ext. intros [t|n]; [reflexivity|].
    cbn [swap substitute_vars existsb].
    destruct (text_eqb (variable_name v) n) eqn:Q.
    + apply text_eqb_eq in Q. subst n. rewrite <- Hv, text_eqb_refl. reflexivity.
    + replace (text_eqb v (token_text n)) with false; [reflexivity|].
      symmetry. apply text_eqb_neq. intros E. rewrite Hv in E.
      apply token_text_inj in E. apply text_eqb_neq in Q. contradiction.
Qed.

Lemma contains_head (p s : text) : startswith p s = true -> contains p s = true.
Proof. intros H. destruct s; simpl; now rewrite H. Qed.

Lemma contains_middle (p a b : text) : contains p (a ++ p ++ b) = true.
Proof.
  induction a as [|c a IH].
  - apply contains_head, startswith_prefix. now exists b.
  - simpl. rewrite IH. apply orb_true_r.
Qed.

Lemma token_in_render (name : text) (items : list item) :
  In (Token name) items -> contains (token_text name) (render items) = true.
Proof.
  intros H. apply in_split in H as (l1 & l2 & ->).
  unfold render. rewrite flat_map_app. cbn [flat_map render_item].
  apply contains_middle.
Qed.

Lemma lookup_offset_spec (table : list (text * Z)) (var_name : text) :
  lookup_offset table var_name
  = if existsb (fun v => text_eqb v var_name) (map fst table)
    then Some (date_offset table var_name) else None.
Proof.
  induction table as [|[name days] rest IH]; [reflexivity|]. simpl.
  destruct (text_eqb name var_name); [reflexivity|exact IH].
Qed.

Lemma existsb_filter {A : Type} (f g : A -> bool) (l : list A) :
  (forall x, f x = true -> g x = true) ->
  existsb f (filter g l) = existsb f l.
Proof.
  intros H. induction l as [|x l IH]; [reflexivity|]. simpl.
  destruct (g x) eqn:G; simpl; [now rewrite IH|].
  destruct (f x) eqn:F; [|exact IH]. apply H in F. congruence.
Qed.

Lemma render_nil (today : date) (items : list item) :
  render items = [] -> render (map (substitute today) items) = [].
Proof.
  induction items as [|[t|n] items IH]; [reflexivity| |]; cbn [render flat_map render_item map].
  - intros H. apply app_eq_nil in H as [-> H]. now apply IH.
  - rewrite token_text_eq. discriminate.
Qed.

(** The query that [preprocess_query] builds from a template: every
    recognized variable has become its date, the rest is untouched. *)
Lemma processed_render (today : date) (items : list item) :
  template_ok items ->
  replace_remaining today
    (filter (fun var => contains var (render items)) (map fst DATE_VARIABLES))
    (render items)
  = render (map (substitute today) items).
Proof.
  intros Hok. rewrite replace_remaining_render.
  - f_equal. apply map_ext_in. intros [t|n] Hin; [reflexivity|].
    cbn [substitute_vars substitute].
    rewrite lookup_offset_spec, existsb_filter.
    { now destruct (existsb _ (map fst DATE_VARIABLES)). }
    intros v Hv. apply text_eqb_eq in Hv. subst v. now apply token_in_render.
  - apply (incl_Forall (l1 := map fst DATE_VARIABLES)).
    + intros v Hv. now apply filter_In in Hv as [Hv _].
    + apply date_variables_are_variables.
  - assumption.
Qed.

Lemma substitute_ok (today : date) (items : list item) :
  template_ok items -> template_ok (map (substitute today) items).
Proof.
  induction 1 as [|it items Hit _ IH]; [constructor|].
  constructor; [|assumption]. destruct it as [t|n]; cbn [substitute]; [assumption|].
  destruct (lookup_offset DATE_VARIABLES (token_text n)); [|assumption].
  apply strftime_brace_free.
Qed.

Lemma one_line_tokens_nil (items : list item) :
  render items = [] -> one_line_tokens items = [].
Proof.
  induction items as [|[t|n] items IH]; [reflexivity| |]; cbn [render flat_map render_item].
  - intros H. apply app_eq_nil in H as [_ H]. now apply IH.
  - rewrite token_text_eq. discriminate.
Qed.

(** ** The variables that remain *)

Lemma template_compiled : re_compile TEMPLATE_PATTERN = TEMPLATE_RE.
Proof. vm_compute. reflexivity. Qed.

Lemma lazy_body (k : groups) (name y : text) :
  brace_free name = true ->
  forall pos,
    rmatch NOFLAGS TAIL_RE pos (name ++ "}"%char :: "}"%char :: y) k finish
    = if one_line name then Some (pos + length name + 2, k) else None.
Proof.
  unfold TAIL_RE. cbn [rmatch]. induction name as [|c name IH]; intros Hn pos.
  - cbn [app star_loop cset_mem rmatch DOTALL IGNORECASE NOFLAGS orb one_line forallb].
    rewrite !eqc_refl. change (eqc "}" newline) with false. cbn [negb orelse].
    unfold finish, orelse. f_equal. f_equal. simpl. lia.
  - apply brace_free_cons in Hn as [Hc Hn].
    cbn [app star_loop one_line forallb cset_mem rmatch DOTALL IGNORECASE NOFLAGS orb].
    rewrite (proj2 (not_brace c Hc)).
    destruct (negb (eqc c newline)); [unfold orelse at 1|reflexivity]. cbn [andb].
    rewrite IH by assumption. fold (one_line name).
    destruct (one_line name); [|reflexivity]. simpl length. f_equal. f_equal. lia.
Qed.

Lemma rmatch_literal (fl : flags) (a c : ascii) (r : regex) (pos : nat) (s : text)
    (g : groups) (k : nat -> text -> groups -> outcome) :
  rmatch fl (Seq (Chr (CChar a)) r) pos (c :: s) g k
  = if cset_mem fl (CChar a) c then rmatch fl r (S pos) s g k else None.
Proof. reflexivity. Qed.

Lemma template_at_token (name y : text) :
  brace_free name = true ->
  match_at NOFLAGS TEMPLATE_RE (token_text name ++ y)
  = if one_line name then Some (length (token_text name), []) else None.
Proof.
  intros Hn. unfold match_at. rewrite token_text_eq. unfold TEMPLATE_RE.
  fold TAIL_RE. cbn [app]. rewrite !rmatch_literal.
  cbn [cset_mem IGNORECASE NOFLAGS]. rewrite !eqc_refl.
  change (fun pos (_ : text) (g : groups) => Some (pos, g)) with finish.
  rewrite <- app_assoc. cbn [app]. rewrite lazy_body by assumption.
  destruct (one_line name); [|reflexivity].
  f_equal. f_equal. simpl. rewrite length_app. simpl. lia.
Qed.

Lemma template_needs_brace (s : text) :
  startswith ["{"%char] s = false -> match_at NOFLAGS TEMPLATE_RE s = None.
Proof.
  destruct s as [|c s]; [reflexivity|]. cbn [startswith]. rewrite andb_true_r.
  intros H. unfold match_at, TEMPLATE_RE. cbn [rmatch cset_mem IGNORECASE NOFLAGS].
  now rewrite H.
Qed.

Lemma template_needs_two (c : ascii) (s : text) :
  eqc "{" c = false -> match_at NOFLAGS TEMPLATE_RE ("{"%char :: c :: s) = None.
Proof.
  intros H. unfold match_at, TEMPLATE_RE. cbn [rmatch cset_mem IGNORECASE NOFLAGS].
  now rewrite eqc_refl, H.
Qed.

(** Inside an item no match starts; in plain text none starts at all. *)
Lemma template_inside_item (it : item) (x1 x2 y : text) :
  item_ok it = true ->
  render_item it = x1 ++ x2 -> x2 <> [] ->
  (x1 <> [] \/ exists t, it = Plain t) ->
  match_at NOFLAGS TEMPLATE_RE (x2 ++ y) = None.
Proof.
  intros Hit E Hx2 Hx1. destruct it as [t|name]; cbn [render_item item_ok] in *.
  - apply template_needs_brace. clear Hx1.
    revert x1 E. induction t as [|c t IH]; intros x1 E.
    + destruct x1, x2; try discriminate. contradiction.
    + apply brace_free_cons in Hit as [Hc Ht]. destruct x1 as [|a x1]; simpl in E.
      * subst x2. cbn [app startswith]. now rewrite (proj1 (not_brace c Hc)).
      * injection E as _ E. now apply (IH Ht x1).
  - destruct Hx1 as [Hx1|[t Ht]]; [|discriminate].
    rewrite token_text_eq in E. destruct x1 as [|a [|b x1]]; [contradiction| |];
      simpl in E.
    + injection E as _ <-. cbn [app].
      destruct name as [|c name]; cbn [app].
      * now apply template_needs_two.
      * apply brace_free_cons in Hit as [Hc _].
        apply template_needs_two. now apply (not_brace c Hc).
    + injection E as _ _ E. apply template_needs_brace.
      now apply (no_open_after name x1 x2 y []).
Qed.

Lemma finditer_pass (m : matcher) (x y : text) :
  (forall x1 x2, x = x1 ++ x2 -> x2 <> [] -> m (x2 ++ y) = None) ->
  forall pos, finditer_from m pos 0 (x ++ y) = finditer_from m (pos + length x) 0 y.
Proof.
  induction x as [|c x IH]; intros H pos.
  - simpl. now rewrite Nat.add_0_r.
  - pose proof (H [] (c :: x) eq_refl ltac:(discriminate)) as E.
    cbn [app finditer_from] in E |- *. rewrite E, IH.
    + f_equal. simpl. lia.
    + intros x1 x2 E2. apply (H (c :: x1)). now rewrite E2.
Qed.

Lemma finditer_skip (m : matcher) (x y : text) :
  forall pos,
    finditer_from m pos (length x) (x ++ y) = finditer_from m (pos + length x) 0 y.
Proof.
  induction x as [|c x IH]; intros pos.
  - simpl. now rewrite Nat.add_0_r.
  - cbn [app length finditer_from]. rewrite IH. f_equal. lia.
Qed.

Lemma finditer_hit (m : matcher) (x y : text) (g : groups) (pos : nat) :
  x <> [] ->
  m (x ++ y) = Some (length x, g) ->
  finditer_from m pos 0 (x ++ y)
  = {| m_start := pos; m_len := length x; m_groups := g |}
      :: finditer_from m (pos + length x) 0 y.
Proof.
  destruct x as [|c x]; [contradiction|]. intros _ M.
  cbn [app finditer_from] in M |- *. rewrite M. f_equal.
  replace (length (c :: x) - 1) with (length x) by (simpl; lia).
  rewrite finditer_skip. f_equal. simpl. lia.
Qed.

Lemma group0_at (pre x y : text) (g : groups) :
  group0 (pre ++ x ++ y) {| m_start := length pre; m_len := length x; m_groups := g |}
  = x.
Proof.
  unfold group0. cbn [m_len m_start].
  rewrite skipn_app, skipn_all, Nat.sub_diag. cbn [app skipn].
  now rewrite firstn_app, firstn_all, Nat.sub_diag, firstn_O, app_nil_r.
Qed.

Lemma template_matches (items : list item) :
  template_ok items ->
  forall pre,
    map (group0 (pre ++ render items))
        (finditer_from (match_at NOFLAGS TEMPLATE_RE) (length pre) 0 (render items))
    = one_line_tokens items.
Proof.
  induction 1 as [|it items Hit Hok IH]; intros pre; [reflexivity|].
  cbn [render flat_map]. fold (render items).
  destruct it as [t|name].
  - cbn [render_item one_line_tokens]. rewrite finditer_pass.
    + rewrite <- length_app, app_assoc. apply IH.
    + intros x1 x2 E Hx2.
      apply (template_inside_item (Plain t) x1 x2); try assumption. right. now exists t.
  - cbn [render_item one_line_tokens]. fold (one_line name).
    pose proof (template_at_token name (render items) Hit) as M.
    destruct (one_line name).
    + rewrite (finditer_hit _ _ _ [] _ (token_text_not_nil name) M).
      cbn [map]. rewrite group0_at. f_equal.
      rewrite <- length_app, app_assoc. apply IH.
    + rewrite finditer_pass.
      * rewrite <- length_app, app_assoc. apply IH.
      * intros x1 x2 E Hx2. destruct x1 as [|a x1].
        -- simpl in E. subst x2. exact M.
        -- apply (template_inside_item (Token name) (a :: x1) x2); try assumption.
           left. discriminate.
Qed.

Lemma findall_template (items : list item) :
  template_ok items ->
  re_findall NOFLAGS (re_compile TEMPLATE_PATTERN) (render items) = one_line_tokens items.
Proof.
  intros Hok. unfold re_findall. rewrite template_compiled.
  change (count_groups TEMPLATE_RE =? 0) with true. cbv iota.
  apply (template_matches items Hok []).
Qed.

(** ** Date substitution *)

(** C8, as amended.  When no key of the table read from [dates.aql] occurs
    in the query (in particular when the file is missing, so that the table
    is empty), [preprocess_query] returns, for a query made of plain text
    and of variables [{{name}}]: the query in which every variable of
    [DATE_VARIABLES] has become the date [today] minus its offset, written
    [YYYY-MM-DD], and every other variable is untouched; and, logged as one
    warning, the variables left in the query that are written on one line.
    The function returns in every case. *)
Theorem date_substitution_without_expressions
    (aql_date_expressions : list (text * text)) (today : date) (items : list item) :
  template_ok items ->
  no_expression_for aql_date_expressions (render items) ->
  preprocess_query aql_date_expressions today (render items)
  = (render (map (substitute today) items),
     unreplaced_warning (one_line_tokens (map (substitute today) items))).
Proof.
  intros Hok Htable. unfold preprocess_query.
  destruct (truthy (render items)) eqn:T; cbn [negb].
  - rewrite (replace_aql_none _ _ Htable), processed_render by assumption.
    rewrite findall_template by now apply substitute_ok.
    reflexivity.
  - assert (E : render items = []) by (destruct (render items); [reflexivity|discriminate]).
    rewrite (one_line_tokens_nil _ (render_nil today items E)).
    rewrite (render_nil today items E), E. reflexivity.
Qed.

(** On 2025-01-10, without [dates.aql]: the variable for thirty days ago
    becomes 2024-12-11, the unknown variable stays and is reported. *)
Lemma date_substitution_without_expressions_witness :
  preprocess_query [] JAN_10_2025
    "SELECT name WHERE createTime > '{{DATE_MINUS_30_DAYS}}' AND owner = '{{OWNER}}'"
  = ("SELECT name WHERE createTime > '2024-12-11' AND owner = '{{OWNER}}'" : text,
     ["Unreplaced variables in query: {{OWNER}}" : text]).
Proof.
  apply (date_substitution_without_expressions [] JAN_10_2025
           [Plain "SELECT name WHERE createTime > '"; Token "DATE_MINUS_30_DAYS";
            Plain "' AND owner = '"; Token "OWNER"; Plain "'"]).
  - repeat constructor.
  - constructor.
Defined.

(** C8, counterexample.  An expression that [dates.aql] gives for a
    recognized variable replaces it, and no date is computed; and a
    variable that spans two lines is left in the query without a warning. *)
Lemma expression_takes_precedence_over_date :
  preprocess_query
    [("{{DATE_MINUS_30_DAYS}}" : text, "DATEADD(DAY, -30, NOW())" : text)] JAN_10_2025
    "SELECT name WHERE createTime > {{DATE_MINUS_30_DAYS}}"
  = ("SELECT name WHERE createTime > DATEADD(DAY, -30, NOW())" : text, [])
  /\ preprocess_query [] JAN_10_2025
       ("SELECT name WHERE owner = {{OWNER" ++ newline :: "NAME}}")
     = ("SELECT name WHERE owner = {{OWNER" ++ newline :: "NAME}}", []).
Proof. split; vm_compute; reflexivity. Qed.

(** ** The LIMIT step, applied twice *)









(** ** The local check and the rewriter *)










(** ** The sessions of both routes *)



















(** ** Preprocessing, once more *)









(** ** A provider that cannot repair *)




(** ** The location of an error *)
















(** ** The table of credentials *)






















